(** * Jobly: the model layer, the partial-update builder and the
      authorization middleware, embedded from the JavaScript sources.

    Sources embedded here:
    - [models/company.js]   (class [Company])
    - [models/job.js]       (class [Job])
    - [middleware/auth.js]  ([authenticateJWT], [ensureLoggedIn],
                             [ensureAdmin], [ensureCorrectUserOrAdmin])
    - [helpers/sql.js]      ([sqlForPartialUpdate]; only its test file and
                             its callers are at hand)

    The relational store and the token codec are collaborators of the
    program; the store is given a small executable model, with its locale
    (collation and [ILIKE]) as a component of the store; the codec is a
    section variable. *)

From Stdlib Require Import Ascii String Sorted.
From stdpp Require Import gmap strings list pretty.

Open Scope string_scope.
Open Scope Z_scope.
Open Scope list_scope.

(** ** JavaScript values and objects *)

(** JavaScript numbers are kept to the integers the program handles
    (identifiers, salaries, employee counts).  An object is the list of its
    own properties in iteration order. *)
#[warnings="-register-all"]
Inductive jsval : Type :=
| JUndefined
| JNull
| JBool (b : bool)
| JNum (n : Z)
| JStr (s : string)
| JObj (fields : list (string * jsval)).

Abbreviation obj := (list (string * jsval)).

(** [o[k]]: the first property named [k], [undefined] when there is none. *)
Fixpoint obj_get (k : string) (o : obj) : jsval :=
  match o with
  | [] => JUndefined
  | (k', v) :: o' => if decide (k' = k) then v else obj_get k o'
  end.

(** Own-property test. *)
Definition obj_has (k : string) (o : obj) : bool :=
  bool_decide (k ∈ o.*1).

(** [delete o[k]]. *)
Definition obj_delete (k : string) (o : obj) : obj :=
  filter (λ kv, kv.1 ≠ k) o.

(** [o[k] = v]: overwrite in place, or append a new property. *)
Fixpoint obj_set (k : string) (v : jsval) (o : obj) : obj :=
  match o with
  | [] => [(k, v)]
  | (k', v') :: o' =>
      if decide (k' = k) then (k, v) :: o' else (k', v') :: obj_set k v o'
  end.

Definition js_get (k : string) (v : jsval) : jsval :=
  match v with JObj o => obj_get k o | _ => JUndefined end.

Definition js_delete (k : string) (v : jsval) : jsval :=
  match v with JObj o => JObj (obj_delete k o) | _ => v end.

Definition js_set (k : string) (x : jsval) (v : jsval) : jsval :=
  match v with JObj o => JObj (obj_set k x o) | _ => v end.

(** Truthiness, as used by [if (x)] and [!x]. *)
Definition truthy (v : jsval) : bool :=
  match v with
  | JUndefined | JNull => false
  | JBool b => b
  | JNum n => negb (n =? 0)
  | JStr s => negb (String.eqb s EmptyString)
  | JObj _ => true
  end.

(** [rows[0]] of a result set. *)
Definition rows0 (rows : list obj) : jsval :=
  match rows with
  | [] => JUndefined
  | r :: _ => JObj r
  end.

(** ** Error conditions ([expressError.js]) *)

Inductive error : Type :=
| BadRequestError (message : string)
| NotFoundError (message : string)
| UnauthorizedError
| StoreError (message : string).

(** ** The partial-update builder *)

Record update_fragment : Type := {
  setCols : string;
  values : list jsval;
}.

(** The physical column of a logical field. *)
Definition column_of (jsToSql : gmap string string) (colName : string) : string :=
  default colName (jsToSql !! colName).

(** The double-quote character. *)
Definition dquote : string := String "034"%char EmptyString.

(** One assignment of the [SET] clause: the column and its parameter
    position. *)
Definition render_assignment (a : string * nat) : string :=
  dquote +:+ a.1 +:+ dquote +:+ "=$" +:+ pretty a.2.

(** Modelled from the spec: [helpers/sql.js] is not among the sources (its
    test file and its two callers are).  The builder lists each field of
    [dataToUpdate], in iteration order, as ["<column>"=$<position>] with
    positions from 1, joins the assignments with [", "], and returns them
    with the values in the same order; a field absent from [jsToSql] keeps
    its logical name; an empty [dataToUpdate] is a BadRequest that says no
    data was given. *)
Definition sqlForPartialUpdate (dataToUpdate : obj) (jsToSql : gmap string string)
  : error + update_fragment :=
  let keys := dataToUpdate.*1 in
  if decide (length keys = 0%nat) then inl (BadRequestError "No data")
  else
    let cols := imap (λ idx colName,
                  render_assignment (column_of jsToSql colName, S idx)) keys in
    inr {| setCols := String.concat ", " cols; values := dataToUpdate.*2 |}.

(** The same assignments in parsed form, as the store reads them back from
    the [SET] clause. *)
Definition set_clause (dataToUpdate : obj) (jsToSql : gmap string string)
  : list (string * nat) :=
  imap (λ idx colName, (column_of jsToSql colName, S idx)) dataToUpdate.*1.

(** ** The relational store

    The store is a collaborator of the program: it takes a statement and
    its positional parameters and gives back rows.  Statements are kept in
    parsed form; the fragments the program assembles as text
    ([render_pred], [render_assignment]) are rendered from that form. *)

(** [NUMERIC] values keep their scale, as the store prints them:
    [unscaled = 1], [scale = 1] is the decimal [0.1]. *)
Record numeric : Type := { unscaled : Z; scale : nat }.

Fixpoint zeros (n : nat) : string :=
  match n with
  | O => EmptyString
  | S n' => String "0"%char (zeros n')
  end.

Definition print_numeric (d : numeric) : string :=
  let digits := pretty (Z.abs (unscaled d)) in
  let padded := zeros (S (scale d) - String.length digits) +:+ digits in
  let int_len := (String.length padded - scale d)%nat in
  (if unscaled d <? 0 then "-" else EmptyString)
  +:+ substring 0 int_len padded
  +:+ (if decide (scale d = 0%nat) then EmptyString
       else "." +:+ substring int_len (scale d) padded).

Definition digit_of (c : ascii) : option Z :=
  let n := nat_of_ascii c in
  if (48 <=? n)%nat && (n <=? 57)%nat then Some (Z.of_nat (n - 48)) else None.

Fixpoint parse_digits (s : string) (seen_point : bool) (acc : Z) (sc : nat)
    (any : bool) : option numeric :=
  match s with
  | EmptyString => if any then Some {| unscaled := acc; scale := sc |} else None
  | String c s' =>
      if Ascii.eqb c "."%char then
        if seen_point then None else parse_digits s' true acc sc any
      else
        match digit_of c with
        | None => None
        | Some d =>
            parse_digits s' seen_point (10 * acc + d)
              (if seen_point then S sc else sc) true
        end
  end.

(** A plain decimal literal: an optional minus sign, digits, at most one
    point.  The store's [NUMERIC] input has further forms (an exponent,
    surrounding blanks, [NaN]), which the model does not read. *)
Definition parse_numeric (s : string) : option numeric :=
  match s with
  | String c s' =>
      if Ascii.eqb c "-"%char then
        (λ d, {| unscaled := - unscaled d; scale := scale d |})
          <$> parse_digits s' false 0 0%nat false
      else parse_digits s false 0 0%nat false
  | EmptyString => None
  end.

Inductive sqlval : Type :=
| SNull
| SInt (n : Z)
| SText (s : string)
| SNumeric (d : numeric).

Inductive coltype : Type := TInt | TText | TNumeric.

(** The driver sends [undefined] and [null] as [NULL]; another parameter is
    read at the type of the column it meets.  The model reads typed
    parameters only: a number for an [INTEGER] or [NUMERIC] column, a string
    for a text column, a plain decimal literal for a [NUMERIC] column, and
    answers [None] for the rest.  It leaves out what the driver and the
    store do beyond that: the driver sends every scalar as text, so a number
    reaches a text column as its digits; an [INTEGER] outside the 32-bit
    range is refused by the store; [NUMERIC] input has further forms (an
    exponent, surrounding blanks).  The statements below that depend on how
    a parameter is read are made for typed parameters ([typed], [int4]). *)
Definition bind_param (ty : coltype) (v : jsval) : option sqlval :=
  match v with
  | JUndefined | JNull => Some SNull
  | JNum n =>
      match ty with
      | TInt => Some (SInt n)
      | TNumeric => Some (SNumeric {| unscaled := n; scale := 0 |})
      | TText => None
      end
  | JStr s =>
      match ty with
      | TText => Some (SText s)
      | TNumeric => SNumeric <$> parse_numeric s
      | TInt => None
      end
  | JBool _ | JObj _ => None
  end.

(** What the driver hands back for a column value: [NUMERIC] comes as its
    decimal string. *)
Definition to_js (v : sqlval) : jsval :=
  match v with
  | SNull => JNull
  | SInt n => JNum n
  | SText s => JStr s
  | SNumeric d => JStr (print_numeric d)
  end.

Definition to_decimal (v : sqlval) : option numeric :=
  match v with
  | SInt n => Some {| unscaled := n; scale := 0 |}
  | SNumeric d => Some d
  | _ => None
  end.

Definition numeric_compare (a b : numeric) : comparison :=
  (unscaled a * 10 ^ Z.of_nat (scale b)) ?= (unscaled b * 10 ^ Z.of_nat (scale a)).

(** Comparison of two values of one kind; [None] when either is [NULL] or
    the kinds differ. *)
Definition sql_compare (a b : sqlval) : option comparison :=
  match a, b with
  | SText s, SText t => Some (String.compare s t)
  | SNull, _ | _, SNull => None
  | _, _ =>
      match to_decimal a, to_decimal b with
      | Some x, Some y => Some (numeric_compare x y)
      | _, _ => None
      end
  end.

Definition sql_eqb (a b : sqlval) : bool :=
  match sql_compare a b with Some Eq => true | _ => false end.

Definition sql_geb (a b : sqlval) : bool :=
  match sql_compare a b with Some Eq | Some Gt => true | _ => false end.

Definition sql_leb (a b : sqlval) : bool :=
  match sql_compare a b with Some Eq | Some Lt => true | _ => false end.

Definition sql_gtb (a b : sqlval) : bool :=
  match sql_compare a b with Some Gt => true | _ => false end.

(** [ILIKE]: [%] matches any run of characters, [_] any one character, a
    backslash takes the next pattern character literally; letters match
    without regard to case. *)
Definition lower (c : ascii) : ascii :=
  let n := nat_of_ascii c in
  if (65 <=? n)%nat && (n <=? 90)%nat then ascii_of_nat (n + 32) else c.

Fixpoint ilike (p s : string) : bool :=
  match p with
  | EmptyString => match s with EmptyString => true | _ => false end
  | String c p' =>
      if Ascii.eqb c "%"%char then
        (fix star (s : string) : bool :=
           ilike p' s
           || match s with EmptyString => false | String _ s' => star s' end) s
      else if Ascii.eqb c "_"%char then
        match s with EmptyString => false | String _ s' => ilike p' s' end
      else if Ascii.eqb c "092"%char then
        match p' with
        | EmptyString => false
        | String c2 p'' =>
            match s with
            | EmptyString => false
            | String d s' => Ascii.eqb (lower c2) (lower d) && ilike p'' s'
            end
        end
      else
        match s with
        | EmptyString => false
        | String d s' => Ascii.eqb (lower c) (lower d) && ilike p' s'
        end
  end.

(** *** Tables *)

Record company_row : Type := {
  co_handle : string;
  co_name : string;
  co_description : string;
  co_num_employees : option Z;
  co_logo_url : option string;
}.

Record job_row : Type := {
  jb_id : Z;
  jb_title : string;
  jb_salary : option Z;
  jb_equity : option numeric;
  jb_company_handle : string;
}.

(** What the store's locale decides: the order [ORDER BY] puts text in (the
    collation of the database) and the [ILIKE] operator, pattern first,
    whose case folding is the locale's.  The locale is [C], where text is
    ordered code unit by code unit and [ILIKE] folds the letters [A] to [Z],
    or another one, given by its order and its [ILIKE]. *)
Inductive locale : Type :=
| c_locale
| a_locale (leb ilike_op : string → string → bool).

Definition text_leb (loc : locale) : string → string → bool :=
  match loc with
  | c_locale => λ a b, negb (sql_gtb (SText a) (SText b))
  | a_locale leb _ => leb
  end.

Definition text_ilike (loc : locale) : string → string → bool :=
  match loc with
  | c_locale => ilike
  | a_locale _ ilike_op => ilike_op
  end.

Record store : Type := {
  companies_tbl : list company_row;
  jobs_tbl : list job_row;
  jobs_id_seq : Z;
  db_locale : locale;
}.

Definition as_text (v : sqlval) : option string :=
  match v with SText s => Some s | _ => None end.

Definition as_int (v : sqlval) : option Z :=
  match v with SInt n => Some n | _ => None end.

Definition as_opt_text (v : sqlval) : option (option string) :=
  match v with SNull => Some None | SText s => Some (Some s) | _ => None end.

Definition as_opt_int (v : sqlval) : option (option Z) :=
  match v with SNull => Some None | SInt n => Some (Some n) | _ => None end.

Definition as_opt_numeric (v : sqlval) : option (option numeric) :=
  match v with SNull => Some None | SNumeric d => Some (Some d) | _ => None end.

(** What the engine needs to know of a table: the type of each column and
    whether it takes [NULL], how to read and write a column of a row, and
    how to build a row from the values of an [INSERT]. *)
Class Table (R : Type) : Type := {
  col_type : string → option (coltype * bool);
  col_get : string → R → sqlval;
  col_put : string → sqlval → R → option R;
  make_row : (string → sqlval) → option R;
}.

#[export] Instance company_table : Table company_row := {|
  col_type c :=
    if decide (c = "handle") then Some (TText, false)
    else if decide (c = "name") then Some (TText, false)
    else if decide (c = "description") then Some (TText, false)
    else if decide (c = "num_employees") then Some (TInt, true)
    else if decide (c = "logo_url") then Some (TText, true)
    else None;
  col_get c r :=
    if decide (c = "handle") then SText (co_handle r)
    else if decide (c = "name") then SText (co_name r)
    else if decide (c = "description") then SText (co_description r)
    else if decide (c = "num_employees") then from_option SInt SNull (co_num_employees r)
    else if decide (c = "logo_url") then from_option SText SNull (co_logo_url r)
    else SNull;
  col_put c v r :=
    if decide (c = "handle") then
      (λ x, {| co_handle := x; co_name := co_name r;
               co_description := co_description r;
               co_num_employees := co_num_employees r;
               co_logo_url := co_logo_url r |}) <$> as_text v
    else if decide (c = "name") then
      (λ x, {| co_handle := co_handle r; co_name := x;
               co_description := co_description r;
               co_num_employees := co_num_employees r;
               co_logo_url := co_logo_url r |}) <$> as_text v
    else if decide (c = "description") then
      (λ x, {| co_handle := co_handle r; co_name := co_name r;
               co_description := x;
               co_num_employees := co_num_employees r;
               co_logo_url := co_logo_url r |}) <$> as_text v
    else if decide (c = "num_employees") then
      (λ x, {| co_handle := co_handle r; co_name := co_name r;
               co_description := co_description r;
               co_num_employees := x;
               co_logo_url := co_logo_url r |}) <$> as_opt_int v
    else if decide (c = "logo_url") then
      (λ x, {| co_handle := co_handle r; co_name := co_name r;
               co_description := co_description r;
               co_num_employees := co_num_employees r;
               co_logo_url := x |}) <$> as_opt_text v
    else None;
  make_row f :=
    h ← as_text (f "handle");
    n ← as_text (f "name");
    d ← as_text (f "description");
    e ← as_opt_int (f "num_employees");
    l ← as_opt_text (f "logo_url");
    Some {| co_handle := h; co_name := n; co_description := d;
            co_num_employees := e; co_logo_url := l |};
|}.

#[export] Instance job_table : Table job_row := {|
  col_type c :=
    if decide (c = "id") then Some (TInt, false)
    else if decide (c = "title") then Some (TText, false)
    else if decide (c = "salary") then Some (TInt, true)
    else if decide (c = "equity") then Some (TNumeric, true)
    else if decide (c = "company_handle") then Some (TText, false)
    else None;
  col_get c r :=
    if decide (c = "id") then SInt (jb_id r)
    else if decide (c = "title") then SText (jb_title r)
    else if decide (c = "salary") then from_option SInt SNull (jb_salary r)
    else if decide (c = "equity") then from_option SNumeric SNull (jb_equity r)
    else if decide (c = "company_handle") then SText (jb_company_handle r)
    else SNull;
  col_put c v r :=
    if decide (c = "id") then
      (λ x, {| jb_id := x; jb_title := jb_title r; jb_salary := jb_salary r;
               jb_equity := jb_equity r;
               jb_company_handle := jb_company_handle r |}) <$> as_int v
    else if decide (c = "title") then
      (λ x, {| jb_id := jb_id r; jb_title := x; jb_salary := jb_salary r;
               jb_equity := jb_equity r;
               jb_company_handle := jb_company_handle r |}) <$> as_text v
    else if decide (c = "salary") then
      (λ x, {| jb_id := jb_id r; jb_title := jb_title r; jb_salary := x;
               jb_equity := jb_equity r;
               jb_company_handle := jb_company_handle r |}) <$> as_opt_int v
    else if decide (c = "equity") then
      (λ x, {| jb_id := jb_id r; jb_title := jb_title r; jb_salary := jb_salary r;
               jb_equity := x;
               jb_company_handle := jb_company_handle r |}) <$> as_opt_numeric v
    else if decide (c = "company_handle") then
      (λ x, {| jb_id := jb_id r; jb_title := jb_title r; jb_salary := jb_salary r;
               jb_equity := jb_equity r;
               jb_company_handle := x |}) <$> as_text v
    else None;
  make_row f :=
    i ← as_int (f "id");
    t ← as_text (f "title");
    s ← as_opt_int (f "salary");
    e ← as_opt_numeric (f "equity");
    h ← as_text (f "company_handle");
    Some {| jb_id := i; jb_title := t; jb_salary := s; jb_equity := e;
            jb_company_handle := h |};
|}.

(** *** Statements *)

(** The predicates of a [WHERE] clause; [pos] is the parameter position
    [$pos]. *)
Inductive pred : Type :=
| PEq (col : string) (pos : nat)
| PGe (col : string) (pos : nat)
| PLe (col : string) (pos : nat)
| PGtZero (col : string)
| PILike (col : string) (pos : nat).

Definition render_pred (p : pred) : string :=
  match p with
  | PEq c i => c +:+ " = $" +:+ pretty i
  | PGe c i => c +:+ " >= $" +:+ pretty i
  | PLe c i => c +:+ " <= $" +:+ pretty i
  | PGtZero c => c +:+ " > 0"
  | PILike c i => c +:+ " ILIKE $" +:+ pretty i
  end.

(** Does the predicate take a bound parameter? *)
Definition pred_param (p : pred) : option nat :=
  match p with
  | PEq _ i | PGe _ i | PLe _ i | PILike _ i => Some i
  | PGtZero _ => None
  end.

(** A select list: each column with the name it is returned under. *)
Abbreviation select_list := (list (string * string)).

Inductive table : Type := companies | jobs.

Inductive statement : Type :=
| SELECT (sel : select_list) (t : table) (where_ : list pred)
         (order_by : option string)
| SELECT_JOBS_LEFT_JOIN_COMPANIES (sel_job sel_company : select_list)
         (where_ : list pred) (order_by : option string)
| INSERT (t : table) (cols : list string) (returning : select_list)
| UPDATE (t : table) (set : list (string * nat)) (where_ : list pred)
         (returning : select_list)
| DELETE (t : table) (where_ : list pred) (returning : select_list).

Definition param (i : nat) (params : list jsval) : option jsval :=
  match i with
  | O => None
  | S j => params !! j
  end.

(** The order of [ORDER BY ... ASC]: [NULL]s last, text by the collation,
    numbers by value. *)
Definition order_leb (loc : locale) (a b : sqlval) : bool :=
  match a, b with
  | _, SNull => true
  | SNull, _ => false
  | SText s, SText t => text_leb loc s t
  | _, _ => negb (sql_gtb a b)
  end.

Section engine.
Context {R : Type} `{!Table R} (loc : locale).

Definition bound (params : list jsval) (c : string) (i : nat) : option sqlval :=
  ty ← col_type (R:=R) c;
  v ← param i params;
  bind_param ty.1 v.

Definition compile_pred (params : list jsval) (p : pred) : option (R → bool) :=
  match p with
  | PEq c i => v ← bound params c i; Some (λ r, sql_eqb (col_get c r) v)
  | PGe c i => v ← bound params c i; Some (λ r, sql_geb (col_get c r) v)
  | PLe c i => v ← bound params c i; Some (λ r, sql_leb (col_get c r) v)
  | PGtZero c =>
      _ ← col_type (R:=R) c; Some (λ r, sql_gtb (col_get c r) (SInt 0))
  | PILike c i =>
      v ← bound params c i;
      Some (λ r, match col_get c r, v with
                 | SText s, SText pat => text_ilike loc pat s
                 | _, _ => false
                 end)
  end.

Definition compile_where (params : list jsval) (w : list pred)
  : option (R → bool) :=
  fs ← mapM (compile_pred params) w;
  Some (λ r, forallb (λ f : R → bool, f r) fs).

Definition project (sel : select_list) (r : R) : obj :=
  (λ ca : string * string, (ca.2, to_js (col_get ca.1 r))) <$> sel.

Fixpoint insert_by (leb : R → R → bool) (x : R) (l : list R) : list R :=
  match l with
  | [] => [x]
  | y :: l' => if leb x y then x :: l else y :: insert_by leb x l'
  end.

Definition order_rows (order_by : option string) (rows : list R) : list R :=
  match order_by with
  | None => rows
  | Some c =>
      foldr (insert_by (λ a b, order_leb loc (col_get c a) (col_get c b)))
            [] rows
  end.

Definition run_select (w : list pred) (order_by : option string)
    (params : list jsval) (rows : list R) : option (list R) :=
  hit ← compile_where params w;
  Some (order_rows order_by (List.filter hit rows)).

Definition bind_set (params : list jsval) (set : list (string * nat))
  : option (list (string * sqlval)) :=
  mapM (λ ci : string * nat, v ← bound params ci.1 ci.2; Some (ci.1, v)) set.

Definition apply_set (asg : list (string * sqlval)) (r : R) : option R :=
  foldl (λ acc (cv : string * sqlval), acc ≫= col_put cv.1 cv.2) (Some r) asg.

(** The table after an [UPDATE], with each changed row before and after. *)
Fixpoint update_rows (hit : R → bool) (f : R → option R) (rows : list R)
  : option (list R * list (R * R)) :=
  match rows with
  | [] => Some ([], [])
  | r :: rows' =>
      rest ← update_rows hit f rows';
      if hit r then r' ← f r; Some (r' :: rest.1, (r, r') :: rest.2)
      else Some (r :: rest.1, rest.2)
  end.
End engine.

(** The value an [INSERT] gives a column: that of its parameter, [NULL]
    when the column is not listed. *)
Fixpoint valuation (asg : list (string * sqlval)) (c : string) : sqlval :=
  match asg with
  | [] => SNull
  | (c', v) :: asg' => if decide (c' = c) then v else valuation asg' c
  end.

(** The columns of an [INSERT] with their parameters [$1], [$2], ... *)
Definition positions (cols : list string) : list (string * nat) :=
  imap (λ i c, (c, S i)) cols.

(** Integrity, checked on the rows a statement writes: primary keys are
    unique, a job names an existing company, a company that jobs refer to
    keeps its handle.  Deleting a company deletes its jobs
    ([commonBeforeAll] empties [companies] while jobs are left from earlier
    runs).  The schema is not among the sources: the keys are those the
    model layer looks rows up by, and [handle], [name], [description],
    [title] and [company_handle] are taken not to be [NULL]. *)
Definition company_ok (s : store) (r : company_row) : bool :=
  bool_decide
    (length (List.filter (λ c, String.eqb (co_handle c) (co_handle r))
                         (companies_tbl s)) = 1%nat).

Definition company_rekey_ok (s : store) (old new : company_row) : bool :=
  String.eqb (co_handle old) (co_handle new)
  || negb (existsb (λ j, String.eqb (jb_company_handle j) (co_handle old))
                   (jobs_tbl s)).

Definition job_ok (s : store) (r : job_row) : bool :=
  bool_decide
    (length (List.filter (λ j, jb_id j =? jb_id r) (jobs_tbl s)) = 1%nat)
  && existsb (λ c, String.eqb (co_handle c) (jb_company_handle r))
             (companies_tbl s).

Definition with_companies (s : store) (cs : list company_row) : store :=
  {| companies_tbl := cs; jobs_tbl := jobs_tbl s; jobs_id_seq := jobs_id_seq s;
     db_locale := db_locale s |}.

Definition with_jobs (s : store) (js : list job_row) : store :=
  {| companies_tbl := companies_tbl s; jobs_tbl := js; jobs_id_seq := jobs_id_seq s;
     db_locale := db_locale s |}.

Definition next_id (s : store) : store :=
  {| companies_tbl := companies_tbl s; jobs_tbl := jobs_tbl s;
     jobs_id_seq := jobs_id_seq s + 1; db_locale := db_locale s |}.

Definition refused (s : store) (m : string) : (error + list obj) * store :=
  (inl (StoreError m), s).

(** The rows a job is joined with: its companies, or one row of [NULL]s. *)
Definition left_join (sel_job sel_company : select_list) (s : store)
    (j : job_row) : list obj :=
  match List.filter (λ c, String.eqb (co_handle c) (jb_company_handle j))
                    (companies_tbl s) with
  | [] => [(project sel_job j
            ++ ((λ ca : string * string, (ca.2, JNull)) <$> sel_company))]
  | cs => (λ c, (project sel_job j ++ project sel_company c)) <$> cs
  end.

(** One statement against the store: the rows it returns, or the store's
    refusal, and the store afterwards.  A statement is refused before it
    runs when it is ill-formed (an unknown column, a column assigned twice
    in one [SET]) or when a parameter cannot be read at its column's type;
    the id of a new job is drawn from the sequence when the [INSERT] runs,
    and stays drawn when the row is then turned down. *)
Definition exec (stmt : statement) (params : list jsval) (s : store)
  : (error + list obj) * store :=
  match stmt with
  | SELECT sel companies w o =>
      match run_select (db_locale s) w o params (companies_tbl s) with
      | Some rs => (inr (project sel <$> rs), s)
      | None => refused s "invalid statement"
      end
  | SELECT sel jobs w o =>
      match run_select (db_locale s) w o params (jobs_tbl s) with
      | Some rs => (inr (project sel <$> rs), s)
      | None => refused s "invalid statement"
      end
  | SELECT_JOBS_LEFT_JOIN_COMPANIES sel_job sel_company w o =>
      match run_select (db_locale s) w o params (jobs_tbl s) with
      | Some rs => (inr (rs ≫= left_join sel_job sel_company s), s)
      | None => refused s "invalid statement"
      end
  | INSERT companies cols ret =>
      match bind_set (R:=company_row) params (positions cols)
            ≫= (λ asg, make_row (valuation asg)) with
      | None => refused s "invalid row"
      | Some r =>
          let s' := with_companies s (companies_tbl s ++ [r]) in
          if company_ok s' r then (inr [project ret r], s')
          else refused s "integrity violation"
      end
  | INSERT jobs cols ret =>
      match bind_set (R:=job_row) params (positions cols) with
      | None => refused s "invalid parameter"
      | Some asg =>
          let s1 := next_id s in
          match make_row (valuation (asg ++ [("id", SInt (jobs_id_seq s))])) with
          | None => refused s1 "invalid row"
          | Some r =>
              let s' := with_jobs s1 (jobs_tbl s1 ++ [r]) in
              if job_ok s' r then (inr [project ret r], s')
              else refused s1 "integrity violation"
          end
      end
  | UPDATE companies set w ret =>
      if negb (bool_decide (NoDup set.*1))
      then refused s "multiple assignments to same column" else
      match compile_where (db_locale s) params w,
            bind_set (R:=company_row) params set with
      | Some hit, Some asg =>
          match update_rows hit (apply_set asg) (companies_tbl s) with
          | None => refused s "invalid row"
          | Some (rows', changed) =>
              let s' := with_companies s rows' in
              if forallb (λ ch : company_row * company_row,
                            company_ok s' ch.2 && company_rekey_ok s' ch.1 ch.2)
                         changed
              then (inr (project ret <$> changed.*2), s')
              else refused s "integrity violation"
          end
      | _, _ => refused s "invalid statement"
      end
  | UPDATE jobs set w ret =>
      if negb (bool_decide (NoDup set.*1))
      then refused s "multiple assignments to same column" else
      match compile_where (db_locale s) params w,
            bind_set (R:=job_row) params set with
      | Some hit, Some asg =>
          match update_rows hit (apply_set asg) (jobs_tbl s) with
          | None => refused s "invalid row"
          | Some (rows', changed) =>
              let s' := with_jobs s rows' in
              if forallb (λ ch : job_row * job_row, job_ok s' ch.2) changed
              then (inr (project ret <$> changed.*2), s')
              else refused s "integrity violation"
          end
      | _, _ => refused s "invalid statement"
      end
  | DELETE companies w ret =>
      match compile_where (db_locale s) params w with
      | Some hit =>
          let gone := List.filter hit (companies_tbl s) in
          let kept := List.filter (λ c, negb (hit c)) (companies_tbl s) in
          let js := List.filter
                      (λ j, negb (existsb (λ c, String.eqb (co_handle c)
                                                   (jb_company_handle j)) gone))
                      (jobs_tbl s) in
          (inr (project ret <$> gone), with_jobs (with_companies s kept) js)
      | None => refused s "invalid statement"
      end
  | DELETE jobs w ret =>
      match compile_where (db_locale s) params w with
      | Some hit =>
          (inr (project ret <$> List.filter hit (jobs_tbl s)),
           with_jobs s (List.filter (λ j, negb (hit j)) (jobs_tbl s)))
      | None => refused s "invalid statement"
      end
  end.

(** ** Calls to the store

    A model function runs against the store and leaves a record of every
    statement it sent; a thrown error ends it with the store as it then is
    (each statement is applied on its own). *)

Record world : Type := {
  db : store;
  queries : list (statement * list jsval);
}.

Definition M (A : Type) : Type := world → (error + A) * world.

#[export] Instance M_ret : MRet M := λ A a w, (inr a, w).

#[export] Instance M_bind : MBind M := λ A B k m w,
  match m w with
  | (inl e, w') => (inl e, w')
  | (inr a, w') => k a w'
  end.

Definition throw {A : Type} (e : error) : M A := λ w, (inl e, w).

Definition lift {A : Type} (r : error + A) : M A := λ w, (r, w).

(** [await db.query(text, params)] *)
Definition db_query (stmt : statement) (params : list jsval) : M (list obj) :=
  λ w,
    let '(r, s') := exec stmt params (db w) in
    (r, {| db := s'; queries := (queries w ++ [(stmt, params)]) |}).

Definition fresh (s : store) : world := {| db := s; queries := [] |}.

(** [`${v}`] *)
Definition js_to_string (v : jsval) : string :=
  match v with
  | JUndefined => "undefined"
  | JNull => "null"
  | JBool true => "true"
  | JBool false => "false"
  | JNum n => pretty n
  | JStr s => s
  | JObj _ => "[object Object]"
  end.

(** ** [models/company.js] *)

Module Company.

Definition columns : select_list :=
  [("handle", "handle"); ("name", "name"); ("description", "description");
   ("num_employees", "numEmployees"); ("logo_url", "logoUrl")].

Definition create (data : obj) : M jsval :=
  let handle := obj_get "handle" data in
  let name := obj_get "name" data in
  let description := obj_get "description" data in
  let numEmployees := obj_get "numEmployees" data in
  let logoUrl := obj_get "logoUrl" data in
  duplicateCheck ←
    db_query (SELECT [("handle", "handle")] companies [PEq "handle" 1] None)
             [handle];
  if truthy (rows0 duplicateCheck) then
    throw (BadRequestError ("Duplicate company: " +:+ js_to_string handle))
  else
    result ←
      db_query (INSERT companies
                  ["handle"; "name"; "description"; "num_employees"; "logo_url"]
                  columns)
               [handle; name; description; numEmployees; logoUrl];
    let company := rows0 result in
    mret company.

(** The search filters, each one optional ([None] is [undefined]). *)
Record filters : Type := {
  name : option string;
  minEmployees : option Z;
  maxEmployees : option Z;
}.

Definition no_filters : filters :=
  {| name := None; minEmployees := None; maxEmployees := None |}.

Definition findAll (f : filters) : M (list obj) :=
  let params : list jsval := [] in
  let filterConditions : list pred := [] in
  '(params, filterConditions) ←
    match minEmployees f with
    | Some minE =>
        if match maxEmployees f with
           | Some maxE => bool_decide (minE > maxE)
           | None => false
           end
        then throw (BadRequestError
                      "minEmployees cannot be greater than maxEmployees")
        else
          let params := (params ++ [JNum minE]) in
          mret (params,
                (filterConditions
                   ++ [PGe "num_employees" (length params)]))
    | None => mret (params, filterConditions)
    end;
  let '(params, filterConditions) :=
    match maxEmployees f with
    | Some maxE =>
        let params := (params ++ [JNum maxE]) in
        (params,
         (filterConditions ++ [PLe "num_employees" (length params)]))
    | None => (params, filterConditions)
    end in
  let '(params, filterConditions) :=
    match name f with
    | Some n =>
        if truthy (JStr n) then
          let params := (params ++ [JStr ("%" +:+ n +:+ "%")]) in
          (params,
           (filterConditions ++ [PILike "name" (length params)]))
        else (params, filterConditions)
    | None => (params, filterConditions)
    end in
  results ←
    db_query (SELECT columns companies filterConditions (Some "name"))
             params;
  mret results.

Definition get (handle : string) : M jsval :=
  companyRes ←
    db_query (SELECT columns companies [PEq "handle" 1] None) [JStr handle];
  let company := rows0 companyRes in
  if negb (truthy company) then
    throw (NotFoundError ("No company: " +:+ handle))
  else mret company.

Definition jsToSql : gmap string string :=
  {[ "numEmployees" := "num_employees"; "logoUrl" := "logo_url" ]}.

Definition update (handle : string) (data : obj) : M jsval :=
  frag ← lift (sqlForPartialUpdate data jsToSql);
  let handleVarIdx := (length (values frag) + 1)%nat in
  result ←
    db_query (UPDATE companies (set_clause data jsToSql)
                     [PEq "handle" handleVarIdx] columns)
             (values frag ++ [JStr handle]);
  let company := rows0 result in
  if negb (truthy company) then
    throw (NotFoundError ("No company: " +:+ handle))
  else mret company.

Definition remove (handle : string) : M jsval :=
  result ←
    db_query (DELETE companies [PEq "handle" 1] [("handle", "handle")])
             [JStr handle];
  let company := rows0 result in
  if negb (truthy company) then
    throw (NotFoundError ("No company: " +:+ handle))
  else mret JUndefined.

End Company.

(** ** [models/job.js] *)

Module Job.

Definition columns : select_list :=
  [("id", "id"); ("title", "title"); ("salary", "salary");
   ("equity", "equity"); ("company_handle", "companyHandle")].

Definition create (data : obj) : M jsval :=
  result ←
    db_query (INSERT jobs ["title"; "salary"; "equity"; "company_handle"]
                     columns)
             [obj_get "title" data; obj_get "salary" data;
              obj_get "equity" data; obj_get "companyHandle" data];
  let job := rows0 result in
  mret job.

(** The search filters, each one optional ([None] is [undefined]). *)
Record filters : Type := {
  minSalary : option Z;
  hasEquity : option bool;
  title : option string;
}.

Definition no_filters : filters :=
  {| minSalary := None; hasEquity := None; title := None |}.

(** The [WHERE] expressions and the query values [findAll] assembles. *)
Definition search_terms (f : filters) : list pred * list jsval :=
  let whereExpressions : list pred := [] in
  let queryValues : list jsval := [] in
  let '(whereExpressions, queryValues) :=
    match minSalary f with
    | Some m =>
        let queryValues := (queryValues ++ [JNum m]) in
        ((whereExpressions ++ [PGe "salary" (length queryValues)]),
         queryValues)
    | None => (whereExpressions, queryValues)
    end in
  let whereExpressions :=
    match hasEquity f with
    | Some true => (whereExpressions ++ [PGtZero "equity"])
    | _ => whereExpressions
    end in
  match title f with
  | Some t =>
      let queryValues := (queryValues ++ [JStr ("%" +:+ t +:+ "%")]) in
      ((whereExpressions ++ [PILike "title" (length queryValues)]),
       queryValues)
  | None => (whereExpressions, queryValues)
  end.

Definition findAll (f : filters) : M (list obj) :=
  let '(whereExpressions, queryValues) := search_terms f in
  jobsRes ←
    db_query (SELECT_JOBS_LEFT_JOIN_COMPANIES
                columns [("name", "companyName")]
                whereExpressions (Some "title"))
             queryValues;
  mret jobsRes.

(** The id is taken as the number it stands for.  [routes/jobs.js] passes
    the path segment as it comes, and the store reads it as an [INTEGER]:
    an id that is no integer or is outside the 32-bit range is refused by
    the store, which the model leaves out (see [bind_param]); the
    statements about keys are made for ids within the range. *)
Definition get (id : Z) : M jsval :=
  jobRes ← db_query (SELECT columns jobs [PEq "id" 1] None) [JNum id];
  let job := rows0 jobRes in
  if negb (truthy job) then throw (NotFoundError ("No job: " +:+ pretty id))
  else
    companiesRes ←
      db_query (SELECT Company.columns companies [PEq "handle" 1] None)
               [js_get "companyHandle" job];
    let job := js_delete "companyHandle" job in
    let job := js_set "company" (rows0 companiesRes) job in
    mret job.

Definition update (id : Z) (data : obj) : M jsval :=
  frag ← lift (sqlForPartialUpdate data ∅);
  let idVarIdx := (length (values frag) + 1)%nat in
  result ←
    db_query (UPDATE jobs (set_clause data ∅) [PEq "id" idVarIdx] columns)
             (values frag ++ [JNum id]);
  let job := rows0 result in
  if negb (truthy job) then throw (NotFoundError ("No job: " +:+ pretty id))
  else mret job.

Definition remove (id : Z) : M jsval :=
  result ← db_query (DELETE jobs [PEq "id" 1] [("id", "id")]) [JNum id];
  let job := rows0 result in
  if negb (truthy job) then throw (NotFoundError ("No job: " +:+ pretty id))
  else mret JUndefined.

End Job.

(** ** [middleware/auth.js] *)

(** [s.replace(/^[Bb]earer /, '')]: the pattern is anchored at the start of
    the string and has no global flag, so one match at most is replaced. *)
Fixpoint string_drop (n : nat) (s : string) : string :=
  match n, s with
  | S n', String _ s' => string_drop n' s'
  | _, _ => s
  end.

Definition replace_bearer (s : string) : string :=
  match s with
  | String c rest =>
      if (Ascii.eqb c "B"%char || Ascii.eqb c "b"%char)
         && String.prefix "earer " rest
      then string_drop 6 rest
      else s
  | EmptyString => s
  end.

(** White space of [String.prototype.trim] among the 8-bit code units a
    header value is made of: TAB, LF, VT, FF, CR, SP, NBSP. *)
Definition is_ws (c : ascii) : bool :=
  let n := nat_of_ascii c in
  ((9 <=? n)%nat && (n <=? 13)%nat) || (n =? 32)%nat || (n =? 160)%nat.

Fixpoint trim_start (s : string) : string :=
  match s with
  | String c s' => if is_ws c then trim_start s' else s
  | EmptyString => EmptyString
  end.

Fixpoint trim_end (s : string) : string :=
  match s with
  | EmptyString => EmptyString
  | String c s' =>
      match trim_end s' with
      | EmptyString => if is_ws c then EmptyString else String c EmptyString
      | t => String c t
      end
  end.

Definition trim (s : string) : string := trim_end (trim_start s).

(** The request as the middleware reads it: the [authorization] header
    ([None] when there are no headers or no such header) and the
    [:username] path parameter. *)
Record request : Type := {
  authorization : option string;
  params_username : jsval;
}.

(** [res.locals] *)
Record locals : Type := { user : jsval }.

(** What a middleware hands to [next]. *)
Inductive next_call : Type :=
| Next
| NextErr (err : error).

(** [a === b] on values that are not both objects. *)
Definition strict_eq (a b : jsval) : bool :=
  match a, b with
  | JUndefined, JUndefined | JNull, JNull => true
  | JBool x, JBool y => bool_decide (x = y)
  | JNum x, JNum y => x =? y
  | JStr x, JStr y => String.eqb x y
  | _, _ => false
  end.

Section middleware.
(** [jwt.verify(token, SECRET_KEY)]: the payload of a token that verifies
    under the signing secret, [None] when the codec throws. *)
Variable jwt_verify : string → option jsval.

Definition authenticateJWT (req : request) (res : locals)
  : locals * next_call :=
  match authorization req with
  | Some authHeader =>
      if truthy (JStr authHeader) then
        let token := trim (replace_bearer authHeader) in
        match jwt_verify token with
        | Some payload => ({| user := payload |}, Next)
        | None => (res, Next)
        end
      else (res, Next)
  | None => (res, Next)
  end.

Definition ensureLoggedIn (req : request) (res : locals)
  : locals * next_call :=
  if negb (truthy (user res)) then (res, NextErr UnauthorizedError)
  else (res, Next).

Definition ensureAdmin (req : request) (res : locals)
  : locals * next_call :=
  let user := user res in
  if truthy user && truthy (js_get "isAdmin" user) then (res, Next)
  else (res, NextErr UnauthorizedError).

Definition ensureCorrectUserOrAdmin (req : request) (res : locals)
  : locals * next_call :=
  let user := user res in
  if truthy user
     && (truthy (js_get "isAdmin" user)
         || strict_eq (js_get "username" user) (params_username req))
  then (res, Next)
  else (res, NextErr UnauthorizedError).

End middleware.

(** ** The test fixture of [routes/_testCommon.js]

    [commonBeforeAll] without the users: three companies and three jobs of
    company [c1], created through the model layer on an empty store. *)

Module TestCommon.

Definition empty_store : store :=
  {| companies_tbl := []; jobs_tbl := []; jobs_id_seq := 1;
     db_locale := c_locale |}.

Definition company (handle name : string) (numEmployees : Z)
    (description logoUrl : string) : obj :=
  [("handle", JStr handle); ("name", JStr name);
   ("numEmployees", JNum numEmployees); ("description", JStr description);
   ("logoUrl", JStr logoUrl)].

Definition commonBeforeAll : M jsval :=
  _ ← Company.create (company "c1" "C1" 1 "Desc1" "http://c1.img");
  _ ← Company.create (company "c2" "C2" 2 "Desc2" "http://c2.img");
  _ ← Company.create (company "c3" "C3" 3 "Desc3" "http://c3.img");
  _ ← Job.create [("title", JStr "J1"); ("salary", JNum 1);
                  ("equity", JStr "0.1"); ("companyHandle", JStr "c1")];
  _ ← Job.create [("title", JStr "J2"); ("salary", JNum 2);
                  ("equity", JStr "0.2"); ("companyHandle", JStr "c1")];
  Job.create [("title", JStr "J3"); ("salary", JNum 3);
              ("companyHandle", JStr "c1")].

Definition test_store : store := db (commonBeforeAll (fresh empty_store)).2.

Definition test_world : world := fresh test_store.

Definition testJobIds : list Z := [1; 2; 3].

End TestCommon.

(** ** Notions the statements below are written with *)

Definition company_exists (s : store) (handle : string) : Prop :=
  ∃ r, r ∈ companies_tbl s ∧ co_handle r = handle.

Definition job_exists (s : store) (id : Z) : Prop :=
  ∃ r, r ∈ jobs_tbl s ∧ jb_id r = id.

(** The outcome of a call is the typed not-found condition. *)
Definition not_found {A : Type} (r : (error + A) * world) : Prop :=
  ∃ m, r.1 = inl (NotFoundError m).

(** The 32-bit range of an [INTEGER] column. *)
Definition int4 (n : Z) : Prop := -2147483648 ≤ n ≤ 2147483647.

(** The store takes no text with the code unit 0 in it. *)
Definition has_nul (s : string) : bool :=
  existsb (Ascii.eqb "000"%char) (list_ascii_of_string s).

(** A typed parameter: one the driver sends and the store reads at the
    column's type as it stands.  That is [undefined] or [null]; an integer
    within range for an [INTEGER] column; a string the store takes for a
    text column; a number or a plain decimal literal for a [NUMERIC]
    column. *)
Definition typed (ty : coltype) (v : jsval) : Prop :=
  match v, ty with
  | (JUndefined | JNull), _ => True
  | JNum n, TInt => int4 n
  | JNum n, TNumeric => True
  | JStr s, TText => has_nul s = false
  | JStr s, TNumeric => is_Some (parse_numeric s)
  | _, _ => False
  end.

(** Update data is valid for a table when every field names, through the
    column-name mapping, a column of the table and carries a typed value
    for it, and no two fields name the same column. *)
Definition valid_field (R : Type) `{!Table R} (jsToSql : gmap string string)
    (kv : string * jsval) : Prop :=
  ∃ ty, col_type (R:=R) (column_of jsToSql kv.1) = Some ty
        ∧ typed ty.1 kv.2.

Definition valid_data (R : Type) `{!Table R} (jsToSql : gmap string string)
    (data : obj) : Prop :=
  Forall (valid_field R jsToSql) data
  ∧ NoDup (column_of jsToSql <$> data.*1).

(** Both bounds are given and the lower one is the greater. *)
Definition inverted_bounds (f : Company.filters) : Prop :=
  ∃ lo hi, Company.minEmployees f = Some lo ∧ Company.maxEmployees f = Some hi
           ∧ lo > hi.

(** A result row that shows a job of the store whose equity is a number
    above zero (so neither [NULL] nor zero). *)
Definition positive_equity (s : store) (row : obj) : Prop :=
  ∃ j d, j ∈ jobs_tbl s ∧ jb_equity j = Some d ∧ 0 < unscaled d
         ∧ obj_get "id" row = JNum (jb_id j)
         ∧ obj_get "equity" row = JStr (print_numeric d).

(** The same filters with [hasEquity] left out. *)
Definition without_hasEquity (f : Job.filters) : Job.filters :=
  {| Job.minSalary := Job.minSalary f; Job.hasEquity := None;
     Job.title := Job.title f |}.

(** The identity of [res.locals.user], as the gates read it. *)
Definition identity_present (res : locals) : Prop :=
  truthy (user res) = true.

Definition admin_flag_set (res : locals) : Prop :=
  truthy (js_get "isAdmin" (user res)) = true.

Definition username_is_target (req : request) (res : locals) : Prop :=
  strict_eq (js_get "username" (user res)) (params_username req) = true.

(** The header starts with neither spelling of the prefix. *)
Definition no_bearer_prefix (s : string) : Prop :=
  String.prefix "Bearer " s = false ∧ String.prefix "bearer " s = false.

(** The token [authenticateJWT] hands to the codec. *)
Definition token_of (authHeader : string) : string :=
  trim (replace_bearer authHeader).

(** The row test of [WHERE handle = $n] and of [WHERE id = $n] once the
    parameter is bound. *)
Definition company_hit (h : string) (r : company_row) : bool :=
  sql_eqb (col_get "handle" r) (SText h).

Definition job_hit (id : Z) (r : job_row) : bool :=
  sql_eqb (col_get "id" r) (SInt id).

(** [k] is an own property of the object [v]. *)
Definition js_has (k : string) (v : jsval) : bool :=
  match v with JObj o => obj_has k o | _ => false end.

(** Every field of [created], those named in [except] apart, is in [got]
    under the same name with the same value. *)
Definition same_fields (except : list string) (created got : jsval) : Prop :=
  ∀ k, js_has k created = true → k ∉ except →
       js_has k got = true ∧ js_get k got = js_get k created.

(** A job as [POST /jobs] of [routes/jobs.test.js] sends it. *)
Definition new_job : obj :=
  [("companyHandle", JStr "c1"); ("title", JStr "J-new"); ("salary", JNum 10);
   ("equity", JStr "0.2")].

(** ** Further notions *)

(** Two middlewares in a row, as Express runs them: the second runs on what
    the first left in [res.locals], unless the first handed an error to
    [next]. *)
Definition and_then (m1 m2 : request → locals → locals * next_call)
    (req : request) (res : locals) : locals * next_call :=
  match m1 req res with
  | (res', Next) => m2 req res'
  | (res', NextErr e) => (res', NextErr e)
  end.

(** A string of white space only. *)
Fixpoint blank (s : string) : bool :=
  match s with
  | EmptyString => true
  | String c s' => is_ws c && blank s'
  end.

(** The two tables of [s'] are those of [s]. *)
Definition same_tables (s s' : store) : Prop :=
  companies_tbl s' = companies_tbl s ∧ jobs_tbl s' = jobs_tbl s.

(** What the driver sends for a value and the store gives back: [undefined]
    comes back as [null]. *)
Definition null_if_undefined (v : jsval) : jsval :=
  match v with JUndefined => JNull | _ => v end.

(** The companies a search with filters [f] asks for: an employee count
    (not [NULL]) within the bounds given, and a name that the store's
    [ILIKE] matches with [%name%] when a non-empty name is given. *)
Definition company_matches (loc : locale) (f : Company.filters)
    (r : company_row) : bool :=
  match Company.minEmployees f with
  | Some lo =>
      match co_num_employees r with Some n => lo <=? n | None => false end
  | None => true
  end
  && match Company.maxEmployees f with
     | Some hi =>
         match co_num_employees r with Some n => n <=? hi | None => false end
     | None => true
     end
  && match Company.name f with
     | Some n =>
         if String.eqb n EmptyString then true
         else text_ilike loc ("%" +:+ n +:+ "%") (co_name r)
     | None => true
     end.

(** The jobs a search with filters [f] asks for: a salary (not [NULL]) of
    at least [minSalary], an equity (not [NULL]) above zero when
    [hasEquity] is [true], a title that the store's [ILIKE] matches with
    [%title%] when a title is given, the empty title included. *)
Definition job_matches (loc : locale) (f : Job.filters) (r : job_row) : bool :=
  match Job.minSalary f with
  | Some m => match jb_salary r with Some n => m <=? n | None => false end
  | None => true
  end
  && match Job.hasEquity f with
     | Some true =>
         match jb_equity r with Some d => 0 <? unscaled d | None => false end
     | _ => true
     end
  && match Job.title f with
     | Some t => text_ilike loc ("%" +:+ t +:+ "%") (jb_title r)
     | None => true
     end.

(** A collation orders any two texts one way or the other. *)
Definition total_order (loc : locale) : Prop :=
  ∀ a b, text_leb loc a b = true ∨ text_leb loc b a = true.

(** The filters of a company search carry typed values: bounds within the
    range of the column, a name the store takes. *)
Definition company_filters_typed (f : Company.filters) : Prop :=
  typed TInt (from_option JNum JUndefined (Company.minEmployees f))
  ∧ typed TInt (from_option JNum JUndefined (Company.maxEmployees f))
  ∧ typed TText (from_option JStr JUndefined (Company.name f)).

Definition job_filters_typed (f : Job.filters) : Prop :=
  typed TInt (from_option JNum JUndefined (Job.minSalary f))
  ∧ typed TText (from_option JStr JUndefined (Job.title f)).

(** The data of a new company, and of a new job, carry typed values for
    the columns they go to. *)
Definition company_data_typed (data : obj) : Prop :=
  typed TText (obj_get "handle" data)
  ∧ typed TText (obj_get "name" data)
  ∧ typed TText (obj_get "description" data)
  ∧ typed TInt (obj_get "numEmployees" data)
  ∧ typed TText (obj_get "logoUrl" data).

Definition job_data_typed (data : obj) : Prop :=
  typed TText (obj_get "title" data)
  ∧ typed TInt (obj_get "salary" data)
  ∧ typed TNumeric (obj_get "equity" data)
  ∧ typed TText (obj_get "companyHandle" data).

(** A job whose equity is a number above zero. *)
Definition has_equity (j : job_row) : bool :=
  match jb_equity j with Some d => 0 <? unscaled d | None => false end.

(** The row [Job.findAll] lists for a job: its columns and, as
    [companyName], the name of the first company with its handle, [null]
    when there is none. *)
Definition job_listing (s : store) (j : job_row) : obj :=
  project Job.columns j
  ++ [("companyName",
       match List.filter (λ c, String.eqb (co_handle c) (jb_company_handle j))
                         (companies_tbl s) with
       | c :: _ => JStr (co_name c)
       | [] => JNull
       end)].

(** The fields [Company.update] is documented to take:
    "Data can include: {name, description, numEmployees, logoUrl}". *)
Definition company_update_fields : list string :=
  ["name"; "description"; "numEmployees"; "logoUrl"].

(** The fields of a job that are neither its id nor its company: with the
    empty column mapping [Job.update] passes, each is its own column. *)
Definition job_update_fields : list string := ["title"; "salary"; "equity"].

(* ================================================================== *)
(** * Properties *)

(** ** The repository's own tests, replayed *)

(** [helpers/sql.test.js], "works: 1 item". *)
Example sqlForPartialUpdate_1_item :
  sqlForPartialUpdate [("f1", JStr "v1")] {[ "f1" := "f1"; "fF2" := "f2" ]}
  = inr {| setCols := dquote +:+ "f1" +:+ dquote +:+ "=$1";
           values := [JStr "v1"] |}.
Proof. reflexivity. Qed.

(** [helpers/sql.test.js], "works: 2 items". *)
Example sqlForPartialUpdate_2_items :
  sqlForPartialUpdate [("f1", JStr "v1"); ("jsF2", JStr "v2")] {[ "jsF2" := "f2" ]}
  = inr {| setCols := dquote +:+ "f1" +:+ dquote +:+ "=$1, "
                      +:+ dquote +:+ "f2" +:+ dquote +:+ "=$2";
           values := [JStr "v1"; JStr "v2"] |}.
Proof. reflexivity. Qed.

(** The predicates are sent as the text the sources write. *)
Example render_pred_texts :
  render_pred (PGe "salary" 1) = "salary >= $1"
  ∧ render_pred (PGtZero "equity") = "equity > 0"
  ∧ render_pred (PILike "title" 2) = "title ILIKE $2"
  ∧ render_pred (PLe "num_employees" 2) = "num_employees <= $2".
Proof. repeat split. Qed.

(** [routes/jobs.test.js], "works: filtering": [hasEquity] keeps J1 and J2. *)
Example jobs_filtering_hasEquity :
  (Job.findAll {| Job.minSalary := None; Job.hasEquity := Some true;
                  Job.title := None |} TestCommon.test_world).1
  = inr [ [("id", JNum 1); ("title", JStr "J1"); ("salary", JNum 1);
           ("equity", JStr "0.1"); ("companyHandle", JStr "c1");
           ("companyName", JStr "C1")];
          [("id", JNum 2); ("title", JStr "J2"); ("salary", JNum 2);
           ("equity", JStr "0.2"); ("companyHandle", JStr "c1");
           ("companyName", JStr "C1")] ].
Proof. vm_compute. reflexivity. Qed.

(** [routes/jobs.test.js], "works: filtering on 2 filters". *)
Example jobs_filtering_2_filters :
  (Job.findAll {| Job.minSalary := Some 2; Job.hasEquity := Some false;
                  Job.title := Some "3" |} TestCommon.test_world).1
  = inr [ [("id", JNum 3); ("title", JStr "J3"); ("salary", JNum 3);
           ("equity", JNull); ("companyHandle", JStr "c1");
           ("companyName", JStr "C1")] ].
Proof. vm_compute. reflexivity. Qed.

(** [routes/jobs.test.js], "works for anon" of [GET /jobs/:id]. *)
Example job_get_works :
  (Job.get 1 TestCommon.test_world).1
  = inr (JObj [("id", JNum 1); ("title", JStr "J1"); ("salary", JNum 1);
               ("equity", JStr "0.1");
               ("company",
                JObj [("handle", JStr "c1"); ("name", JStr "C1");
                      ("description", JStr "Desc1"); ("numEmployees", JNum 1);
                      ("logoUrl", JStr "http://c1.img")])]).
Proof. vm_compute. reflexivity. Qed.

(** [routes/users.test.js], "works for same user", "works for admins" and
    "unauth if not same user" of [PATCH /users/:username]. *)
Example patch_user_gate :
  let u1 := JObj [("username", JStr "u1"); ("isAdmin", JBool false)] in
  let u2 := JObj [("username", JStr "u2"); ("isAdmin", JBool false)] in
  let admin := JObj [("username", JStr "admin"); ("isAdmin", JBool true)] in
  let req := {| authorization := None; params_username := JStr "u1" |} in
  (ensureCorrectUserOrAdmin req {| user := u1 |}).2 = Next
  ∧ (ensureCorrectUserOrAdmin req {| user := admin |}).2 = Next
  ∧ (ensureCorrectUserOrAdmin req {| user := u2 |}).2 = NextErr UnauthorizedError
  ∧ (ensureCorrectUserOrAdmin req {| user := JUndefined |}).2
    = NextErr UnauthorizedError.
Proof. repeat split. Qed.

(** [models/company.test.js], "bad request with dupe". *)
Example company_create_dupe :
  (Company.create
     (TestCommon.company "c1" "C1" 1 "Desc1" "http://c1.img")
     TestCommon.test_world).1
  = inl (BadRequestError "Duplicate company: c1").
Proof. vm_compute. reflexivity. Qed.

(** ** The partial-update builder *)

Lemma column_of_mapped (jsToSql : gmap string string) (field c : string) :
  jsToSql !! field = Some c → column_of jsToSql field = c.
Proof. unfold column_of. by intros ->. Qed.

Lemma column_of_unmapped (jsToSql : gmap string string) (field : string) :
  jsToSql !! field = None → column_of jsToSql field = field.
Proof. unfold column_of. by intros ->. Qed.

Lemma set_clause_lookup (data : obj) (jsToSql : gmap string string) (i : nat)
    (field : string) (value : jsval) :
  data !! i = Some (field, value) →
  set_clause data jsToSql !! i = Some (column_of jsToSql field, S i).
Proof.
  intros Hi. unfold set_clause.
  by rewrite list_lookup_imap, list_lookup_fmap, Hi.
Qed.

Lemma sqlForPartialUpdate_nonempty (data : obj) (jsToSql : gmap string string) :
  data ≠ [] →
  sqlForPartialUpdate data jsToSql
  = inr {| setCols := String.concat ", "
                        (render_assignment <$> set_clause data jsToSql);
           values := data.*2 |}.
Proof.
  intros Hne. unfold sqlForPartialUpdate, set_clause.
  destruct (decide _) as [Hlen|_].
  - rewrite length_fmap in Hlen. by destruct data.
  - do 2 f_equal. generalize (data.*1) as keys. intros keys.
    rewrite fmap_imap. reflexivity.
Qed.

(** C3.  For every non-empty field-to-value mapping and every column-name
    mapping, [sqlForPartialUpdate] returns a [setCols] string that is the
    [", "]-join of exactly one assignment per input field, in the mapping's
    iteration order; the assignment of the field at index [i] is
    ["<column>"=$<i+1>], so positions increase strictly from 1; the column is
    the mapped name when the field is in the column-name mapping and the
    field's own name otherwise; [values] holds the fields' values in the
    same order and number. *)
Theorem sqlForPartialUpdate_assignments
    (dataToUpdate : obj) (jsToSql : gmap string string) :
  dataToUpdate ≠ [] →
  ∃ frag assignments,
    sqlForPartialUpdate dataToUpdate jsToSql = inr frag
    ∧ setCols frag = String.concat ", " assignments
    ∧ length assignments = length dataToUpdate
    ∧ (∀ i field value,
         dataToUpdate !! i = Some (field, value) →
         assignments !! i
         = Some (dquote +:+ column_of jsToSql field +:+ dquote
                 +:+ "=$" +:+ pretty (S i))
         ∧ values frag !! i = Some value)
    ∧ (∀ field c, jsToSql !! field = Some c → column_of jsToSql field = c)
    ∧ (∀ field, jsToSql !! field = None → column_of jsToSql field = field)
    ∧ values frag = dataToUpdate.*2
    ∧ length (values frag) = length dataToUpdate.
Proof.
  intros Hne.
  eexists _, (render_assignment <$> set_clause dataToUpdate jsToSql).
  split; [by apply sqlForPartialUpdate_nonempty|]. simpl.
  split; [done|].
  split.
  { unfold set_clause. by rewrite length_fmap, length_imap, length_fmap. }
  split.
  { intros i field value Hi. split.
    - rewrite list_lookup_fmap, (set_clause_lookup _ _ _ _ _ Hi). done.
    - by rewrite list_lookup_fmap, Hi. }
  split; [apply column_of_mapped|].
  split; [apply column_of_unmapped|].
  split; [done|]. by rewrite length_fmap.
Qed.

Lemma sqlForPartialUpdate_assignments_witness :
  ∃ frag assignments,
    sqlForPartialUpdate [("name", JStr "New"); ("numEmployees", JNum 10)]
                        Company.jsToSql = inr frag
    ∧ setCols frag = String.concat ", " assignments
    ∧ length assignments = 2%nat
    ∧ assignments !! 1%nat
      = Some (dquote +:+ "num_employees" +:+ dquote +:+ "=$2")
    ∧ values frag = [JStr "New"; JNum 10].
Proof.
  destruct (sqlForPartialUpdate_assignments
              [("name", JStr "New"); ("numEmployees", JNum 10)]
              Company.jsToSql ltac:(discriminate))
    as (frag & assignments & Hfrag & Hcols & Hlen & Hat & _ & _ & Hvals & _).
  exists frag, assignments.
  split; [exact Hfrag|]. split; [exact Hcols|]. split; [exact Hlen|].
  split; [|exact Hvals].
  exact (proj1 (Hat 1%nat "numEmployees" (JNum 10) eq_refl)).
Defined.

(** C4.  With an empty field-to-value mapping [sqlForPartialUpdate] fails
    with the BadRequest condition whose message says that no data was
    given, and so does every entity update called with an empty data
    object: [Company.update] and [Job.update] end in that error without a
    statement sent and with the store untouched. *)
Theorem update_without_data_is_bad_request :
  (∀ jsToSql, sqlForPartialUpdate [] jsToSql = inl (BadRequestError "No data"))
  ∧ (∀ handle w,
       Company.update handle [] w = (inl (BadRequestError "No data"), w))
  ∧ (∀ id w, Job.update id [] w = (inl (BadRequestError "No data"), w)).
Proof. repeat split. Qed.

(** ** The authorization middleware *)

Lemma prefix_empty (s : string) : String.prefix EmptyString s = true.
Proof. by destruct s. Qed.

Lemma replace_bearer_upper (t : string) : replace_bearer ("Bearer " +:+ t) = t.
Proof. cbv [String.append]. simpl. by rewrite prefix_empty. Qed.

Lemma replace_bearer_lower (t : string) : replace_bearer ("bearer " +:+ t) = t.
Proof. cbv [String.append]. simpl. by rewrite prefix_empty. Qed.

Lemma replace_bearer_other (s : string) :
  no_bearer_prefix s → replace_bearer s = s.
Proof.
  intros [HB Hb]. destruct s as [|c rest]; [done|].
  unfold replace_bearer. cbn [String.prefix] in HB, Hb.
  destruct (Ascii.eqb_spec c "B") as [->|HnB]; simpl.
  { destruct (ascii_dec "B" "B"); [by rewrite HB | done]. }
  destruct (Ascii.eqb_spec c "b") as [->|Hnb]; simpl; [|done].
  destruct (ascii_dec "b" "b"); [by rewrite Hb | done].
Qed.

Lemma trim_start_head (s : string) :
  trim_start s = EmptyString
  ∨ ∃ c r, trim_start s = String c r ∧ is_ws c = false.
Proof.
  induction s as [|c s IH]; [by left|]. simpl.
  destruct (is_ws c) eqn:Hc; [done|]. right. by exists c, s.
Qed.

Lemma trim_end_head (c : ascii) (r : string) :
  is_ws c = false → ∃ r', trim_end (String c r) = String c r'.
Proof.
  intros Hc. simpl. destruct (trim_end r); [rewrite Hc|]; by eexists.
Qed.

Lemma trim_start_blank (a s : string) :
  blank a = true → trim_start (a +:+ s) = trim_start s.
Proof.
  induction a as [|c a IH]; [done|].
  change (String c a +:+ s) with (String c (a +:+ s)). simpl.
  intros [Hc Ha]%andb_true_iff. rewrite Hc. by apply IH.
Qed.

Lemma trim_end_of_blank (b : string) : blank b = true → trim_end b = EmptyString.
Proof.
  induction b as [|c b IH]; [done|]. simpl.
  intros [Hc Hb]%andb_true_iff. by rewrite (IH Hb), Hc.
Qed.

Lemma trim_end_blank (s b : string) :
  blank b = true → trim_end (s +:+ b) = trim_end s.
Proof.
  intros Hb. induction s as [|c s IH].
  - change (EmptyString +:+ b) with b. by apply trim_end_of_blank.
  - change (String c s +:+ b) with (String c (s +:+ b)).
    cbn [trim_end]. by rewrite IH.
Qed.

Lemma trim_start_length (s : string) :
  (String.length (trim_start s) ≤ String.length s)%nat.
Proof.
  induction s as [|c s IH]; simpl; [done|].
  destruct (is_ws c); simpl; lia.
Qed.

Lemma trim_end_length (s : string) :
  (String.length (trim_end s) ≤ String.length s)%nat.
Proof.
  induction s as [|c s IH]; simpl; [done|].
  destruct (trim_end s); [destruct (is_ws c)|]; simpl in *; lia.
Qed.

Lemma trim_fixed (t : string) :
  trim t = t → trim_start t = t ∧ trim_end t = t.
Proof.
  unfold trim. intros Ht.
  assert (trim_start t = t) as Hs.
  { destruct t as [|c t']; [done|]. simpl in *.
    destruct (is_ws c); [|done].
    pose proof (trim_end_length (trim_start t')) as H1.
    pose proof (trim_start_length t') as H2.
    rewrite Ht in H1. simpl in H1. lia. }
  by rewrite Hs in Ht.
Qed.

Lemma trim_padded (a t b : string) :
  blank a = true → blank b = true → trim t = t →
  trim (a +:+ t +:+ b) = t.
Proof.
  intros Ha Hb Ht. apply trim_fixed in Ht as [Hs He].
  unfold trim. rewrite (trim_start_blank _ _ Ha).
  destruct t as [|c t'].
  - change (EmptyString +:+ b) with b.
    assert (trim_start b = EmptyString) as ->; [|done].
    clear -Hb. induction b as [|c b IH]; [done|]. simpl in *.
    apply andb_true_iff in Hb as [-> Hb]. by apply IH.
  - assert (is_ws c = false) as Hc.
    { simpl in Hs. destruct (is_ws c); [|done].
      pose proof (trim_start_length t') as H2. rewrite Hs in H2.
      simpl in H2. lia. }
    change (String c t' +:+ b) with (String c (t' +:+ b)).
    cbn [trim_start]. rewrite Hc.
    change (String c (t' +:+ b)) with (String c t' +:+ b).
    by rewrite (trim_end_blank _ _ Hb).
Qed.

Lemma trim_start_split (s : string) :
  ∃ a, blank a = true ∧ s = a +:+ trim_start s.
Proof.
  induction s as [|c s (a & Ha & IH)]; [by exists EmptyString|]. simpl.
  destruct (is_ws c) eqn:Hc; [|by exists EmptyString].
  exists (String c a). simpl. rewrite Hc, Ha. split; [done|].
  change (String c a +:+ trim_start s) with (String c (a +:+ trim_start s)).
  by rewrite <- IH.
Qed.

Lemma trim_end_split (s : string) :
  ∃ b, blank b = true ∧ s = trim_end s +:+ b.
Proof.
  induction s as [|c s (b & Hb & IH)]; [by exists EmptyString|]. simpl.
  destruct (trim_end s) as [|d t] eqn:Ht.
  - change (EmptyString +:+ b) with b in IH. subst s.
    destruct (is_ws c) eqn:Hc.
    + exists (String c b). simpl. by rewrite Hc, Hb.
    + exists b. by split.
  - exists b. split; [done|].
    change (String c (String d t) +:+ b) with (String c (String d t +:+ b)).
    by rewrite <- IH.
Qed.

Lemma trim_split (s : string) :
  ∃ a b, blank a = true ∧ blank b = true ∧ s = a +:+ trim s +:+ b.
Proof.
  destruct (trim_start_split s) as (a & Ha & Hs).
  destruct (trim_end_split (trim_start s)) as (b & Hb & Ht).
  exists a, b. split; [done|]. split; [done|].
  unfold trim. by rewrite <- Ht.
Qed.

Lemma trim_first (s : string) (c : ascii) (r : string) :
  trim s = String c r → is_ws c = false.
Proof.
  unfold trim.
  destruct (trim_start_head s) as [->|(c' & r' & -> & Hc)]; [done|].
  destruct (trim_end_head c' r' Hc) as [r'' ->]. by intros [= <- _].
Qed.

Lemma trim_end_last (s r : string) (c : ascii) :
  trim_end s = r +:+ String c EmptyString → is_ws c = false.
Proof.
  revert r. induction s as [|d s IH]; intros r.
  - by destruct r.
  - simpl. destruct (trim_end s) as [|e t] eqn:Ht.
    + destruct (is_ws d) eqn:Hd; [by destruct r|].
      destruct r as [|x r]; simpl; [by intros [= <-]|].
      intros [= _ Hr]. by destruct r.
    + destruct r as [|x r]; simpl; [done|].
      intros [= _ Hr]. by apply (IH r).
Qed.

(** C8.  The self-or-admin gate passes a request exactly when an identity
    is present and either its admin flag is set or its username is the
    target username of the path; in every other case it hands the
    Unauthorized condition to [next]; either way [res.locals] is left as
    it was.  For a username and a target that are strings, being the target
    is equality of the two strings. *)
Theorem ensureCorrectUserOrAdmin_gate (req : request) (res : locals) :
  (ensureCorrectUserOrAdmin req res = (res, Next)
   ↔ identity_present res
     ∧ (admin_flag_set res ∨ username_is_target req res))
  ∧ (ensureCorrectUserOrAdmin req res = (res, NextErr UnauthorizedError)
     ↔ ¬ (identity_present res
          ∧ (admin_flag_set res ∨ username_is_target req res)))
  ∧ (ensureCorrectUserOrAdmin req res).1 = res
  ∧ (∀ u t, js_get "username" (user res) = JStr u →
            params_username req = JStr t →
            (username_is_target req res ↔ u = t)).
Proof.
  unfold ensureCorrectUserOrAdmin, identity_present, admin_flag_set,
    username_is_target.
  destruct (truthy (user res)) eqn:Hu;
    destruct (truthy (js_get "isAdmin" (user res))) eqn:Ha;
    destruct (strict_eq (js_get "username" (user res)) (params_username req))
      eqn:He; simpl.
  all: split; [split; [intros; try discriminate; tauto
                      | intros [? [?|?]]; done || discriminate]|].
  all: split; [split; [intros ?; try discriminate;
                       intros [? [?|?]]; discriminate
                      | intros Hn; try done; exfalso; apply Hn; tauto]|].
  all: split; [done|].
  all: intros u t Hun Ht; rewrite Hun, Ht in He; simpl in He;
    destruct (String.eqb_spec u t); (done || split; congruence).
Qed.

Lemma ensureCorrectUserOrAdmin_gate_witness :
  ensureCorrectUserOrAdmin
    {| authorization := None; params_username := JStr "u1" |}
    {| user := JObj [("username", JStr "u2"); ("isAdmin", JBool false)] |}
  = ({| user := JObj [("username", JStr "u2"); ("isAdmin", JBool false)] |},
     NextErr UnauthorizedError).
Proof.
  apply (proj1 (proj2 (ensureCorrectUserOrAdmin_gate _ _))).
  intros [_ [Hadmin|Hsame]]; discriminate.
Defined.

(** C9.  Identity extraction never fails the request: whatever the request,
    it calls [next] without an error.  With no header, an empty header, or
    a token the codec rejects (invalid or expired), [res.locals] is left as
    it was, so no identity is set; the identity is attached, as the payload
    of the token, exactly when the codec accepts the token. *)
Theorem authenticateJWT_soft (jwt_verify : string → option jsval)
    (req : request) (res : locals) :
  (authenticateJWT jwt_verify req res).2 = Next
  ∧ (authorization req = None →
     authenticateJWT jwt_verify req res = (res, Next))
  ∧ (authorization req = Some EmptyString →
     authenticateJWT jwt_verify req res = (res, Next))
  ∧ (∀ authHeader,
       authorization req = Some authHeader →
       jwt_verify (token_of authHeader) = None →
       authenticateJWT jwt_verify req res = (res, Next))
  ∧ (∀ authHeader payload,
       authorization req = Some authHeader →
       authHeader ≠ EmptyString →
       jwt_verify (token_of authHeader) = Some payload →
       authenticateJWT jwt_verify req res = ({| user := payload |}, Next))
  ∧ ((authenticateJWT jwt_verify req res).1 ≠ res →
     ∃ authHeader payload,
       authorization req = Some authHeader
       ∧ jwt_verify (token_of authHeader) = Some payload
       ∧ (authenticateJWT jwt_verify req res).1 = {| user := payload |}).
Proof.
  unfold authenticateJWT, token_of.
  destruct (authorization req) as [h|] eqn:Hh.
  2: { repeat split; try done. }
  destruct h as [|c h'].
  { simpl. repeat split; try done. intros ? ? [= <-]. done. }
  simpl truthy. cbv iota.
  destruct (jwt_verify (trim (replace_bearer (String c h')))) as [p|] eqn:Hv.
  - split; [done|]. split; [done|]. split; [done|].
    split; [intros ? [= <-]; congruence|].
    split; [intros ? ? [= <-] _; congruence|].
    intros _. by exists (String c h'), p.
  - split; [done|]. split; [done|]. split; [done|].
    split; [done|].
    split; [intros ? ? [= <-] _; congruence|].
    done.
Qed.

Lemma authenticateJWT_soft_witness :
  authenticateJWT (λ t, if String.eqb t "tok"
                        then Some (JObj [("username", JStr "u1");
                                         ("isAdmin", JBool false)])
                        else None)
                  {| authorization := Some "Bearer tok";
                     params_username := JUndefined |}
                  {| user := JUndefined |}
  = ({| user := JObj [("username", JStr "u1"); ("isAdmin", JBool false)] |},
     Next).
Proof.
  refine (proj1 (proj2 (proj2 (proj2 (proj2
            (authenticateJWT_soft _ _ _))))) "Bearer tok" _ _ _ _).
  - reflexivity.
  - discriminate.
  - reflexivity.
Defined.

(** C10.  Identity extraction verifies the header with one leading
    ["Bearer "] or ["bearer "] removed and the surrounding white space
    trimmed.  The prefix is matched at the start only: a header that starts
    with neither spelling is left whole, and of two prefixes in a row only
    the first is removed.  What is left of the header is the token between
    two runs of white space, and the token neither starts nor ends with
    white space; that token is what the codec is given.  So a raw token
    sent without the prefix is treated exactly as the same token sent with
    it. *)
Theorem authenticateJWT_bearer_prefix (jwt_verify : string → option jsval) :
  (∀ t, replace_bearer ("Bearer " +:+ t) = t
        ∧ replace_bearer ("bearer " +:+ t) = t)
  ∧ (∀ s, no_bearer_prefix s → replace_bearer s = s)
  ∧ (∀ t, replace_bearer ("Bearer " +:+ ("Bearer " +:+ t)) = "Bearer " +:+ t)
  ∧ (∀ s, ∃ a b,
       blank a = true ∧ blank b = true
       ∧ replace_bearer s = a +:+ token_of s +:+ b
       ∧ (∀ c r, token_of s = String c r → is_ws c = false)
       ∧ (∀ r c, token_of s = r +:+ String c EmptyString → is_ws c = false))
  ∧ (∀ authHeader p res,
       authHeader ≠ EmptyString →
       authenticateJWT jwt_verify
         {| authorization := Some authHeader; params_username := p |} res
       = match jwt_verify (token_of authHeader) with
         | Some payload => ({| user := payload |}, Next)
         | None => (res, Next)
         end)
  ∧ (∀ token p res,
       token ≠ EmptyString →
       no_bearer_prefix token →
       authenticateJWT jwt_verify
         {| authorization := Some token; params_username := p |} res
       = authenticateJWT jwt_verify
           {| authorization := Some ("Bearer " +:+ token);
              params_username := p |} res).
Proof.
  split; [intros t; split;
          [apply replace_bearer_upper | apply replace_bearer_lower]|].
  split; [apply replace_bearer_other|].
  split; [intros t; apply replace_bearer_upper|].
  split.
  { intros s. unfold token_of.
    destruct (trim_split (replace_bearer s)) as (a & b & Ha & Hb & Hs).
    exists a, b. split; [done|]. split; [done|]. split; [done|].
    split; [apply trim_first | apply trim_end_last]. }
  split.
  { intros [|c h] p res Hne; [done|]. reflexivity. }
  intros [|c t] p res Hne Hpre; [done|].
  unfold authenticateJWT. cbn [authorization].
  change ("Bearer " +:+ String c t) with (String "B" ("earer " +:+ String c t)).
  cbn [truthy String.eqb negb Ascii.eqb].
  replace (replace_bearer (String "B" ("earer " +:+ String c t)))
    with (String c t) by (symmetry; apply replace_bearer_upper).
  rewrite (replace_bearer_other _ Hpre).
  reflexivity.
Qed.

Lemma authenticateJWT_bearer_prefix_witness :
  let verify := λ t, if String.eqb t "tok"
                     then Some (JObj [("username", JStr "u1")]) else None in
  authenticateJWT verify
    {| authorization := Some "tok"; params_username := JUndefined |}
    {| user := JUndefined |}
  = authenticateJWT verify
      {| authorization := Some "Bearer tok"; params_username := JUndefined |}
      {| user := JUndefined |}.
Proof.
  intros verify.
  refine (proj2 (proj2 (proj2 (proj2 (proj2
            (authenticateJWT_bearer_prefix verify))))) "tok" _ _ _ _).
  - discriminate.
  - split; reflexivity.
Defined.

(** ** Rows in order *)

Section sorting.
Context {R : Type}.

Lemma elem_of_insert_by (leb : R → R → bool) (a x : R) (l : list R) :
  x ∈ insert_by leb a l ↔ x = a ∨ x ∈ l.
Proof.
  induction l as [|y l IH]; simpl.
  - rewrite list_elem_of_singleton, elem_of_nil. tauto.
  - destruct (leb a y); rewrite !elem_of_cons; [tauto|].
    rewrite IH. tauto.
Qed.

Lemma elem_of_order_rows `{!Table R} (loc : locale) (o : option string)
    (x : R) (l : list R) :
  x ∈ order_rows loc o l ↔ x ∈ l.
Proof.
  destruct o as [c|]; [|done]. simpl.
  induction l as [|y l IH]; [done|]. simpl.
  rewrite elem_of_insert_by, IH, elem_of_cons. tauto.
Qed.

Lemma elem_of_filter_bool (p : R → bool) (x : R) (l : list R) :
  x ∈ List.filter p l ↔ x ∈ l ∧ p x = true.
Proof. rewrite !list_elem_of_In. apply filter_In. Qed.
End sorting.

(** ** Running a model function *)

Lemma M_bind_ret {A : Type} (m : M A) (w : world) : (m ≫= mret) w = m w.
Proof.
  unfold mbind, M_bind, mret, M_ret. by destruct (m w) as [[e|a] w'].
Qed.

Lemma db_query_run (stmt : statement) (params : list jsval) (w : world) :
  db_query stmt params w
  = ((exec stmt params (db w)).1,
     {| db := (exec stmt params (db w)).2;
        queries := queries w ++ [(stmt, params)] |}).
Proof. unfold db_query. by destruct (exec stmt params (db w)). Qed.

Lemma left_join_fields (s : store) (j : job_row) (row : obj) :
  row ∈ left_join Job.columns [("name", "companyName")] s j →
  obj_get "id" row = JNum (jb_id j)
  ∧ obj_get "equity" row = to_js (from_option SNumeric SNull (jb_equity j)).
Proof.
  unfold left_join.
  destruct (List.filter _ (companies_tbl s)) as [|c cs].
  - rewrite list_elem_of_singleton. by intros ->.
  - rewrite list_elem_of_fmap. by intros (c' & -> & _).
Qed.

Lemma job_findAll_run (f : Job.filters) (w : world) :
  Job.findAll f w
  = db_query (SELECT_JOBS_LEFT_JOIN_COMPANIES
                Job.columns [("name", "companyName")]
                (Job.search_terms f).1 (Some "title"))
             (Job.search_terms f).2 w.
Proof.
  unfold Job.findAll. destruct (Job.search_terms f) as [wh qv].
  apply M_bind_ret.
Qed.

(** ** Lookups by primary key *)

Lemma string_compare_refl (s : string) : String.compare s s = Eq.
Proof.
  induction s as [|c s IH]; [done|]. simpl.
  unfold Ascii.compare. by rewrite N.compare_refl.
Qed.

Lemma sql_eqb_text (a b : string) : sql_eqb (SText a) (SText b) = true ↔ a = b.
Proof.
  unfold sql_eqb. cbn [sql_compare]. split.
  - destruct (String.compare a b) eqn:Hc; try done.
    intros _. by apply String.compare_eq_iff.
  - intros ->. by rewrite string_compare_refl.
Qed.

Lemma sql_eqb_int (a b : Z) : sql_eqb (SInt a) (SInt b) = true ↔ a = b.
Proof.
  unfold sql_eqb. cbn [sql_compare to_decimal]. unfold numeric_compare.
  cbn [unscaled scale]. change (Z.of_nat 0) with 0.
  rewrite Z.pow_0_r, !Z.mul_1_r. split.
  - destruct (a ?= b) eqn:Hc; try done. intros _. by apply Z.compare_eq_iff.
  - intros ->. by rewrite Z.compare_refl.
Qed.

Lemma param_last (l : list jsval) (x : jsval) :
  param (length l + 1) (l ++ [x]) = Some x.
Proof.
  rewrite Nat.add_1_r. simpl.
  by rewrite lookup_app_r, Nat.sub_diag.
Qed.

Lemma company_key_where {loc : locale} (params : list jsval) (i : nat)
    (h : string) :
  param i params = Some (JStr h) →
  compile_where (R:=company_row) loc params [PEq "handle" i]
  = Some (λ r, company_hit h r && true).
Proof.
  intros Hp. unfold compile_where. cbn [mapM compile_pred].
  unfold bound. change (col_type (R:=company_row) "handle") with (Some (TText, false)).
  cbn [mbind option_bind fst]. rewrite Hp. reflexivity.
Qed.

Lemma job_key_where {loc : locale} (params : list jsval) (i : nat) (id : Z) :
  param i params = Some (JNum id) →
  compile_where (R:=job_row) loc params [PEq "id" i]
  = Some (λ r, job_hit id r && true).
Proof.
  intros Hp. unfold compile_where. cbn [mapM compile_pred].
  unfold bound. change (col_type (R:=job_row) "id") with (Some (TInt, false)).
  cbn [mbind option_bind fst]. rewrite Hp. reflexivity.
Qed.

Lemma filter_nonempty {A : Type} (p : A → bool) (l : list A) :
  List.filter p l ≠ [] ↔ ∃ x, x ∈ l ∧ p x = true.
Proof.
  split.
  - destruct (List.filter p l) as [|x l'] eqn:Hf; [done|]. intros _.
    exists x. apply elem_of_filter_bool. rewrite Hf. left.
  - intros (x & Hx & Hpx) Hnil.
    assert (x ∈ List.filter p l) as Hin by by apply elem_of_filter_bool.
    rewrite Hnil in Hin. by apply elem_of_nil in Hin.
Qed.

Lemma company_exists_hits (s : store) (h : string) :
  company_exists s h
  ↔ List.filter (λ r, company_hit h r && true) (companies_tbl s) ≠ [].
Proof.
  rewrite filter_nonempty. unfold company_exists, company_hit.
  split; intros (r & Hr & Hh); exists r; split; try done.
  - rewrite andb_true_r. by apply sql_eqb_text.
  - rewrite andb_true_r in Hh. by apply sql_eqb_text in Hh.
Qed.

Lemma job_exists_hits (s : store) (id : Z) :
  job_exists s id
  ↔ List.filter (λ r, job_hit id r && true) (jobs_tbl s) ≠ [].
Proof.
  rewrite filter_nonempty. unfold job_exists, job_hit.
  split; intros (r & Hr & Hh); exists r; split; try done.
  - rewrite andb_true_r. by apply sql_eqb_int.
  - rewrite andb_true_r in Hh. by apply sql_eqb_int in Hh.
Qed.

Lemma exec_select_company (sel : select_list) (params : list jsval) (i : nat)
    (h : string) (s : store) :
  param i params = Some (JStr h) →
  exec (SELECT sel companies [PEq "handle" i] None) params s
  = (inr (project sel
            <$> List.filter (λ r, company_hit h r && true) (companies_tbl s)),
     s).
Proof.
  intros Hp. unfold exec, run_select.
  by rewrite (company_key_where _ _ h Hp).
Qed.

Lemma exec_select_job (sel : select_list) (params : list jsval) (i : nat)
    (id : Z) (s : store) :
  param i params = Some (JNum id) →
  exec (SELECT sel jobs [PEq "id" i] None) params s
  = (inr (project sel
            <$> List.filter (λ r, job_hit id r && true) (jobs_tbl s)),
     s).
Proof.
  intros Hp. unfold exec, run_select.
  by rewrite (job_key_where _ _ id Hp).
Qed.

Lemma company_get_run (h : string) (w : world) :
  Company.get h w
  = let w' := {| db := db w;
                 queries := queries w
                   ++ [(SELECT Company.columns companies [PEq "handle" 1] None,
                        [JStr h])] |} in
    match List.filter (λ r, company_hit h r && true) (companies_tbl (db w)) with
    | [] => (inl (NotFoundError ("No company: " +:+ h)), w')
    | r :: _ => (inr (JObj (project Company.columns r)), w')
    end.
Proof.
  unfold Company.get, mbind, M_bind.
  rewrite db_query_run, (exec_select_company _ _ _ h) by done.
  cbn [fst snd]. by destruct (List.filter _ _).
Qed.

Lemma company_remove_run (h : string) (w : world) :
  match List.filter (λ r, company_hit h r && true) (companies_tbl (db w)) with
  | [] => ∃ w', Company.remove h w
                = (inl (NotFoundError ("No company: " +:+ h)), w')
  | _ :: _ => ∃ w', Company.remove h w = (inr JUndefined, w')
  end.
Proof.
  unfold Company.remove, mbind, M_bind. rewrite db_query_run.
  unfold exec. rewrite (company_key_where _ _ h) by done.
  cbn [fst snd].
  destruct (List.filter _ (companies_tbl (db w))); by eexists.
Qed.

Lemma job_remove_run (id : Z) (w : world) :
  match List.filter (λ r, job_hit id r && true) (jobs_tbl (db w)) with
  | [] => ∃ w', Job.remove id w
                = (inl (NotFoundError ("No job: " +:+ pretty id)), w')
  | _ :: _ => ∃ w', Job.remove id w = (inr JUndefined, w')
  end.
Proof.
  unfold Job.remove, mbind, M_bind. rewrite db_query_run.
  unfold exec. rewrite (job_key_where _ _ id) by done.
  cbn [fst snd].
  destruct (List.filter _ (jobs_tbl (db w))); by eexists.
Qed.

Lemma job_get_run (id : Z) (w : world) :
  match List.filter (λ r, job_hit id r && true) (jobs_tbl (db w)) with
  | [] => ∃ w', Job.get id w = (inl (NotFoundError ("No job: " +:+ pretty id)), w')
  | j :: _ =>
      ∃ w',
        Job.get id w
        = (inr (js_set "company"
                  (rows0 (project Company.columns
                            <$> List.filter
                                  (λ r, company_hit (jb_company_handle j) r && true)
                                  (companies_tbl (db w))))
                  (js_delete "companyHandle" (JObj (project Job.columns j)))),
           w')
  end.
Proof.
  unfold Job.get, mbind, M_bind.
  rewrite db_query_run, (exec_select_job _ _ _ id) by done.
  cbn [fst snd].
  destruct (List.filter _ (jobs_tbl (db w))) as [|j js]; [by eexists|].
  cbn [fmap list_fmap rows0 truthy negb].
  rewrite db_query_run. cbn [db].
  rewrite (exec_select_company _ _ _ (jb_company_handle j)) by done.
  by eexists.
Qed.

Lemma typed_bind (ty : coltype) (v : jsval) :
  typed ty v → is_Some (bind_param ty v).
Proof.
  destruct v, ty; simpl; try done; try by eexists.
  intros [d ->]. by eexists.
Qed.

Lemma set_clause_columns (data : obj) (jsToSql : gmap string string) :
  (set_clause data jsToSql).*1 = column_of jsToSql <$> data.*1.
Proof.
  unfold set_clause. generalize (data.*1). intros ks.
  apply list_eq. intros i.
  rewrite list_lookup_fmap, list_lookup_imap, list_lookup_fmap.
  by destruct (ks !! i).
Qed.

Lemma valid_data_distinct {R : Type} `{!Table R} (jsToSql : gmap string string)
    (data : obj) :
  valid_data R jsToSql data →
  negb (bool_decide (NoDup (set_clause data jsToSql).*1)) = false.
Proof.
  intros [_ Hnd]. rewrite set_clause_columns.
  by rewrite bool_decide_eq_true_2.
Qed.

Section updates.
Context {R : Type} `{!Table R}.

Lemma update_rows_miss (hit : R → bool) (f : R → option R) (rows : list R) :
  List.filter hit rows = [] → update_rows hit f rows = Some (rows, []).
Proof.
  induction rows as [|r rows IH]; [done|]. simpl.
  destruct (hit r); [done|]. intros Hnil. by rewrite (IH Hnil).
Qed.

Lemma update_rows_hit (hit : R → bool) (f : R → option R) (rows rows' : list R)
    (changed : list (R * R)) :
  List.filter hit rows ≠ [] →
  update_rows hit f rows = Some (rows', changed) → changed ≠ [].
Proof.
  revert rows' changed.
  induction rows as [|r rows IH]; [done|]. simpl. intros rows' changed.
  destruct (update_rows hit f rows) as [[rest ch]|]; [|done]. simpl.
  destruct (hit r).
  - intros _. destruct (f r); [|done]. simpl. by intros [= <- <-].
  - intros Hne [= <- <-]. by eapply IH.
Qed.

Lemma bind_set_valid (jsToSql : gmap string string) (data : obj)
    (key : jsval) :
  valid_data R jsToSql data →
  is_Some (bind_set (R:=R) (data.*2 ++ [key]) (set_clause data jsToSql)).
Proof.
  intros [Hvalid _]. unfold bind_set. apply mapM_is_Some, Forall_lookup.
  intros i [c pos] Hi. unfold set_clause in Hi.
  rewrite list_lookup_imap, list_lookup_fmap in Hi.
  destruct (data !! i) as [[k v]|] eqn:Hdi; [|done].
  injection Hi as <- <-.
  pose proof (Forall_lookup_1 _ _ _ _ Hvalid Hdi)
    as (ty & Hty & [sv Hsv]%typed_bind).
  simpl in Hty, Hsv. unfold compose, bound. cbn [fst snd].
  rewrite Hty. cbn [mbind option_bind param].
  rewrite lookup_app_l by (rewrite length_fmap; by eapply lookup_lt_Some).
  rewrite list_lookup_fmap, Hdi. cbn [fmap option_fmap option_map snd mbind option_bind].
  rewrite Hsv. by eexists.
Qed.
End updates.

Lemma company_update_run (h : string) (data : obj) (w : world) :
  data ≠ [] → valid_data company_row Company.jsToSql data →
  match List.filter (λ r, company_hit h r && true) (companies_tbl (db w)) with
  | [] => ∃ w', Company.update h data w
                = (inl (NotFoundError ("No company: " +:+ h)), w')
  | _ :: _ => ∃ w', (∃ c, Company.update h data w = (inr c, w'))
                    ∨ (∃ m, Company.update h data w = (inl (StoreError m), w'))
  end.
Proof.
  intros Hne Hvalid.
  unfold Company.update, mbind, M_bind, lift.
  rewrite (sqlForPartialUpdate_nonempty _ _ Hne). cbn [values].
  rewrite db_query_run. unfold exec.
  rewrite (valid_data_distinct _ _ Hvalid).
  rewrite (company_key_where _ _ h) by apply param_last.
  destruct (bind_set_valid Company.jsToSql data (JStr h) Hvalid) as [asg ->].
  destruct (List.filter _ (companies_tbl (db w))) as [|r0 rs] eqn:Hf.
  - rewrite (update_rows_miss _ _ _ Hf). by eexists.
  - destruct (update_rows _ _ _) as [[rows' changed]|] eqn:Hu.
    + assert (changed ≠ []) as Hch.
      { eapply update_rows_hit; [|exact Hu]. by rewrite Hf. }
      destruct (forallb _ changed).
      * destruct changed as [|[o n] changed]; [done|].
        eexists. left. by eexists.
      * eexists. right. by eexists.
    + eexists. right. by eexists.
Qed.

Lemma job_update_run (id : Z) (data : obj) (w : world) :
  data ≠ [] → valid_data job_row ∅ data →
  match List.filter (λ r, job_hit id r && true) (jobs_tbl (db w)) with
  | [] => ∃ w', Job.update id data w
                = (inl (NotFoundError ("No job: " +:+ pretty id)), w')
  | _ :: _ => ∃ w', (∃ j, Job.update id data w = (inr j, w'))
                    ∨ (∃ m, Job.update id data w = (inl (StoreError m), w'))
  end.
Proof.
  intros Hne Hvalid.
  unfold Job.update, mbind, M_bind, lift.
  rewrite (sqlForPartialUpdate_nonempty _ _ Hne). cbn [values].
  rewrite db_query_run. unfold exec.
  rewrite (valid_data_distinct _ _ Hvalid).
  rewrite (job_key_where _ _ id) by apply param_last.
  destruct (bind_set_valid ∅ data (JNum id) Hvalid) as [asg ->].
  destruct (List.filter _ (jobs_tbl (db w))) as [|r0 rs] eqn:Hf.
  - rewrite (update_rows_miss _ _ _ Hf). by eexists.
  - destruct (update_rows _ _ _) as [[rows' changed]|] eqn:Hu.
    + assert (changed ≠ []) as Hch.
      { eapply update_rows_hit; [|exact Hu]. by rewrite Hf. }
      destruct (forallb _ changed).
      * destruct changed as [|[o n] changed]; [done|].
        eexists. left. by eexists.
      * eexists. right. by eexists.
    + eexists. right. by eexists.
Qed.



(** ** Create, then get *)

Lemma bind_param_text (v : jsval) (sv : sqlval) (h : string) :
  bind_param TText v = Some sv → as_text sv = Some h → v = JStr h.
Proof. destruct v; simpl; intros [= <-]; simpl; congruence. Qed.

Lemma bind_set_inv {R : Type} `{!Table R} (params : list jsval)
    (set : list (string * nat)) (asg : list (string * sqlval)) :
  bind_set (R:=R) params set = Some asg →
  Forall2 (λ ci cv, cv.1 = ci.1 ∧ bound (R:=R) params ci.1 ci.2 = Some cv.2)
          set asg.
Proof.
  intros Hasg. apply mapM_Some_1 in Hasg.
  eapply Forall2_impl; [exact Hasg|]. intros [c i] [c' v]. simpl.
  destruct (bound params c i); simpl; [|done]. by intros [= <- <-].
Qed.

Ltac invert_Forall2 :=
  repeat match goal with
  | H : Forall2 _ (_ :: _) _ |- _ =>
      apply Forall2_cons_inv_l in H as ([? ?] & ? & [? ?] & H & ->);
      simpl in *; subst
  | H : Forall2 _ [] _ |- _ => apply Forall2_nil_inv_l in H as ->
  end.

Lemma exec_insert_company (ret : select_list) (v1 v2 v3 v4 v5 : jsval)
    (s s' : store) (rows : list obj) :
  exec (INSERT companies
          ["handle"; "name"; "description"; "num_employees"; "logo_url"] ret)
       [v1; v2; v3; v4; v5] s = (inr rows, s') →
  ∃ r, v1 = JStr (co_handle r)
       ∧ rows = [project ret r]
       ∧ s' = with_companies s (companies_tbl s ++ [r])
       ∧ company_ok s' r = true.
Proof.
  unfold exec.
  destruct (bind_set _ _) as [asg|] eqn:Hasg; [|done].
  cbn [mbind option_bind].
  destruct (make_row (valuation asg)) as [r|] eqn:Hrow; [|done].
  destruct (company_ok _ r) eqn:Hok; [|done].
  intros [= <- <-]. exists r. repeat split; try done.
  apply bind_set_inv in Hasg.
  change (positions ["handle"; "name"; "description"; "num_employees"; "logo_url"])
    with [("handle", 1%nat); ("name", 2%nat); ("description", 3%nat);
          ("num_employees", 4%nat); ("logo_url", 5%nat)] in Hasg.
  invert_Forall2.
  destruct (as_text s1) as [h|] eqn:Hs1; [|done].
  assert (co_handle r = h) as ->.
  { simpl in Hrow.
    repeat match type of Hrow with
           | context [?f ?x ≫= _] => destruct (f x); simpl in Hrow; [|done]
           end.
    by injection Hrow as <-. }
  unfold bound in H0. simpl in H0. by eapply bind_param_text.
Qed.

Lemma exec_insert_job (ret : select_list) (v1 v2 v3 v4 : jsval)
    (s s' : store) (rows : list obj) :
  exec (INSERT jobs ["title"; "salary"; "equity"; "company_handle"] ret)
       [v1; v2; v3; v4] s = (inr rows, s') →
  ∃ r, jb_id r = jobs_id_seq s
       ∧ rows = [project ret r]
       ∧ s' = with_jobs (next_id s) (jobs_tbl s ++ [r])
       ∧ job_ok s' r = true.
Proof.
  unfold exec.
  destruct (bind_set _ _) as [asg|] eqn:Hasg; [|done].
  cbn [mbind option_bind].
  destruct (make_row _) as [r|] eqn:Hrow; [|done].
  destruct (job_ok _ r) eqn:Hok; [|done].
  intros [= <- <-]. exists r. repeat split; try done.
  apply bind_set_inv in Hasg.
  change (positions ["title"; "salary"; "equity"; "company_handle"])
    with [("title", 1%nat); ("salary", 2%nat); ("equity", 3%nat);
          ("company_handle", 4%nat)] in Hasg.
  invert_Forall2. simpl in Hrow.
  repeat match type of Hrow with
         | context [?f ?x ≫= _] => destruct (f x); simpl in Hrow; [|done]
         end.
  by injection Hrow as <-.
Qed.

Lemma rows0_fmap_falsy {A : Type} (f : A → obj) (l : list A) :
  truthy (rows0 (f <$> l)) = false → l = [].
Proof. by destruct l. Qed.

Lemma company_create_then_get (data : obj) (w w1 : world) (company : jsval) :
  Company.create data w = (inr company, w1) →
  ∃ handle w2,
    obj_get "handle" data = JStr handle
    ∧ Company.get handle w1 = (inr company, w2).
Proof.
  unfold Company.create, mbind, M_bind. rewrite db_query_run.
  destruct (exec _ [obj_get "handle" data] (db w)) as [[e|dup] s1] eqn:Hdup;
    [done|].
  cbn [fst snd]. destruct (truthy (rows0 dup)) eqn:Hno; [done|].
  rewrite db_query_run. cbn [db].
  destruct (exec _ _ s1) as [[e|rows] s2] eqn:Hins; [done|].
  cbn [fst snd]. intros [= <- <-].
  apply exec_insert_company in Hins as (r & Hh & -> & -> & Hok).
  rewrite Hh in Hdup.
  rewrite (exec_select_company _ _ _ (co_handle r)) in Hdup by done.
  injection Hdup as <- <-.
  apply rows0_fmap_falsy in Hno.
  exists (co_handle r). eexists. split; [done|].
  rewrite company_get_run. cbn [db with_companies companies_tbl].
  rewrite List.filter_app, Hno. cbn [List.filter app].
  unfold company_hit at 1.
  change (col_get "handle" r) with (SText (co_handle r)).
  rewrite (proj2 (sql_eqb_text _ _) eq_refl). reflexivity.
Qed.

Lemma obj_get_set_ne (k k' : string) (v : jsval) (o : obj) :
  k ≠ k' → obj_get k (obj_set k' v o) = obj_get k o.
Proof.
  intros Hne. induction o as [|[k0 v0] o IH]; simpl.
  - by rewrite decide_False.
  - destruct (decide (k0 = k')) as [->|]; simpl.
    + by rewrite !decide_False.
    + by rewrite IH.
Qed.

Lemma obj_get_set_eq (k : string) (v : jsval) (o : obj) :
  obj_get k (obj_set k v o) = v.
Proof.
  induction o as [|[k0 v0] o IH]; simpl.
  - by rewrite decide_True.
  - destruct (decide (k0 = k)) as [->|]; simpl.
    + by rewrite decide_True.
    + by rewrite decide_False.
Qed.

Lemma obj_get_delete_ne (k k' : string) (o : obj) :
  k ≠ k' → obj_get k (obj_delete k' o) = obj_get k o.
Proof.
  intros Hne. unfold obj_delete.
  induction o as [|[k0 v0] o IH]; [done|].
  rewrite filter_cons. simpl.
  destruct (decide (k0 ≠ k')) as [Hk|Hk]; simpl.
  - by rewrite IH.
  - apply dec_stable in Hk as ->. by rewrite decide_False.
Qed.

Lemma obj_get_delete_eq (k : string) (o : obj) :
  obj_get k (obj_delete k o) = JUndefined.
Proof.
  unfold obj_delete. induction o as [|[k0 v0] o IH]; [done|].
  rewrite filter_cons. simpl.
  destruct (decide (k0 ≠ k)) as [Hk|Hk]; simpl; [|done].
  by rewrite decide_False.
Qed.

Lemma obj_has_keys (k : string) (o : obj) : obj_has k o = true ↔ k ∈ o.*1.
Proof. unfold obj_has. apply bool_decide_eq_true. Qed.

Lemma obj_set_keys (k k' : string) (v : jsval) (o : obj) :
  k ∈ (obj_set k' v o).*1 ↔ k = k' ∨ k ∈ o.*1.
Proof.
  induction o as [|[k0 v0] o IH]; simpl.
  - rewrite list_elem_of_singleton, elem_of_nil. tauto.
  - destruct (decide (k0 = k')) as [->|Hne]; simpl; rewrite !elem_of_cons.
    + tauto.
    + rewrite IH. tauto.
Qed.

Lemma obj_delete_keys (k k' : string) (o : obj) :
  k ∈ (obj_delete k' o).*1 ↔ k ≠ k' ∧ k ∈ o.*1.
Proof.
  unfold obj_delete. rewrite !list_elem_of_fmap. split.
  - intros ([k0 v0] & -> & Hin). apply list_elem_of_filter in Hin as [Hne Hin].
    split; [done|]. by exists (k0, v0).
  - intros [Hne ([k0 v0] & -> & Hin)]. exists (k0, v0). split; [done|].
    by apply list_elem_of_filter.
Qed.

Lemma job_key_unique (r : job_row) (js : list job_row) :
  length (List.filter (λ j, jb_id j =? jb_id r) (js ++ [r])) = 1%nat →
  List.filter (λ j, job_hit (jb_id r) j && true) (js ++ [r]) = [r].
Proof.
  assert (∀ j, (job_hit (jb_id r) j && true) = (jb_id j =? jb_id r)) as Hext.
  { intros j. rewrite andb_true_r. unfold job_hit.
    change (col_get "id" j) with (SInt (jb_id j)).
    destruct (Z.eqb_spec (jb_id j) (jb_id r)) as [Heq|Hne].
    - by apply sql_eqb_int.
    - apply not_true_is_false. by rewrite sql_eqb_int. }
  rewrite (List.filter_ext _ _ Hext), !List.filter_app. simpl.
  rewrite Z.eqb_refl, length_app. simpl.
  destruct (List.filter _ js); [done|]. simpl. lia.
Qed.

Lemma job_company_found (cs : list company_row) (h : string) :
  existsb (λ c, String.eqb (co_handle c) h) cs = true →
  ∃ c rest,
    List.filter (λ r, company_hit h r && true) cs = c :: rest
    ∧ co_handle c = h.
Proof.
  intros Hex. apply existsb_exists in Hex as (c0 & Hin & Heq).
  apply String.eqb_eq in Heq.
  destruct (List.filter _ cs) as [|c rest] eqn:Hf.
  - exfalso. eapply (proj2 (filter_nonempty _ cs)); [|exact Hf].
    exists c0. split; [by apply list_elem_of_In|].
    rewrite andb_true_r. unfold company_hit.
    change (col_get "handle" c0) with (SText (co_handle c0)).
    by apply sql_eqb_text.
  - exists c, rest. split; [done|].
    assert (c ∈ List.filter (λ r, company_hit h r && true) cs) as Hc
      by (rewrite Hf; left).
    apply elem_of_filter_bool in Hc as [_ Hc].
    rewrite andb_true_r in Hc. by apply sql_eqb_text in Hc.
Qed.

Lemma job_create_then_get (data : obj) (w w1 : world) (job : jsval) :
  Job.create data w = (inr job, w1) →
  ∃ id got w2,
    js_get "id" job = JNum id
    ∧ Job.get id w1 = (inr got, w2)
    ∧ same_fields ["companyHandle"] job got
    ∧ js_has "companyHandle" got = false
    ∧ js_get "handle" (js_get "company" got) = js_get "companyHandle" job.
Proof.
  unfold Job.create, mbind, M_bind. rewrite db_query_run.
  destruct (exec _ _ (db w)) as [[e|rows] s1] eqn:Hins; [done|].
  cbn [fst snd]. intros [= <- <-].
  apply exec_insert_job in Hins as (r & Hid & -> & -> & Hok).
  apply andb_true_iff in Hok as [Hkey Hfk].
  apply bool_decide_eq_true in Hkey.
  cbn [with_jobs next_id jobs_tbl companies_tbl] in Hkey, Hfk.
  apply job_key_unique in Hkey.
  apply job_company_found in Hfk as (c & rest & Hc & Hch).
  exists (jb_id r).
  pose proof (job_get_run (jb_id r)
                {| db := with_jobs (next_id (db w)) (jobs_tbl (db w) ++ [r]);
                   queries := queries w
                     ++ [(INSERT jobs ["title"; "salary"; "equity"; "company_handle"]
                                 Job.columns,
                          [obj_get "title" data; obj_get "salary" data;
                           obj_get "equity" data; obj_get "companyHandle" data])]
                |}) as Hrun.
  cbn [db with_jobs next_id jobs_tbl companies_tbl] in Hrun.
  rewrite Hkey, Hc in Hrun. destruct Hrun as [w2 Hrun].
  eexists _, w2. split; [done|]. split; [exact Hrun|].
  cbn [fmap list_fmap rows0 js_set js_delete js_get].
  split; [|split].
  - intros k Hhas Hk. apply not_elem_of_cons in Hk as [Hk _].
    cbn [js_has js_get] in *.
    assert (k ≠ "company") as Hk'.
    { intros ->. apply obj_has_keys in Hhas. simpl in Hhas.
      repeat (apply elem_of_cons in Hhas as [?|Hhas]; [done|]).
      by apply elem_of_nil in Hhas. }
    split.
    + apply obj_has_keys, obj_set_keys. right.
      apply obj_delete_keys. split; [done|]. by apply obj_has_keys.
    + rewrite obj_get_set_ne, obj_get_delete_ne; done.
  - apply not_true_is_false. intros Hhas.
    apply obj_has_keys, obj_set_keys in Hhas as [?|Hhas]; [done|].
    by apply obj_delete_keys in Hhas as [? _].
  - rewrite obj_get_set_eq. cbn. by rewrite Hch.
Qed.

(** C1, as the code has it.  For a company, a successful [create(data)]
    followed by [get] on the created handle returns the create result
    itself.  For a job, a successful [create(data)] followed by [get] on the
    created id returns every field of the create result other than
    [companyHandle] (the generated [id] included) under the same name with
    the same value; [companyHandle] is not a field of the get result, which
    carries instead, as [company], the projection of the owning company,
    whose handle is the created [companyHandle]. *)
Theorem create_then_get (data : obj) (w w1 : world) (created : jsval) :
  (Company.create data w = (inr created, w1) →
   ∃ handle w2,
     obj_get "handle" data = JStr handle
     ∧ Company.get handle w1 = (inr created, w2)
     ∧ same_fields [] created created)
  ∧ (Job.create data w = (inr created, w1) →
     ∃ id got w2,
       js_get "id" created = JNum id
       ∧ Job.get id w1 = (inr got, w2)
       ∧ same_fields ["companyHandle"] created got
       ∧ js_has "companyHandle" got = false
       ∧ js_get "handle" (js_get "company" got)
         = js_get "companyHandle" created).
Proof.
  split.
  - intros Hc. apply company_create_then_get in Hc as (h & w2 & Hh & Hget).
    exists h, w2. by repeat split.
  - apply job_create_then_get.
Qed.

Lemma create_then_get_witness :
  ∃ id got w2,
    js_get "id" (JObj [("id", JNum 4); ("title", JStr "J-new");
                       ("salary", JNum 10); ("equity", JStr "0.2");
                       ("companyHandle", JStr "c1")]) = JNum id
    ∧ Job.get id (Job.create new_job TestCommon.test_world).2 = (inr got, w2)
    ∧ same_fields ["companyHandle"]
        (JObj [("id", JNum 4); ("title", JStr "J-new"); ("salary", JNum 10);
               ("equity", JStr "0.2"); ("companyHandle", JStr "c1")]) got
    ∧ js_has "companyHandle" got = false
    ∧ js_get "handle" (js_get "company" got) = JStr "c1".
Proof.
  refine (proj2 (create_then_get new_job TestCommon.test_world _ _) _).
  vm_compute. reflexivity.
Defined.

(** C1, as the spec words it, fails for a job: on the test fixture,
    creating a job of company [c1] gives a result with [companyHandle], and
    the get on the created id gives a result without it. *)
Lemma job_create_then_get_drops_companyHandle :
  let created := JObj [("id", JNum 4); ("title", JStr "J-new");
                       ("salary", JNum 10); ("equity", JStr "0.2");
                       ("companyHandle", JStr "c1")] in
  let got := JObj [("id", JNum 4); ("title", JStr "J-new");
                   ("salary", JNum 10); ("equity", JStr "0.2");
                   ("company",
                    JObj [("handle", JStr "c1"); ("name", JStr "C1");
                          ("description", JStr "Desc1");
                          ("numEmployees", JNum 1);
                          ("logoUrl", JStr "http://c1.img")])] in
  (Job.create new_job TestCommon.test_world).1 = inr created
  ∧ (Job.get 4 (Job.create new_job TestCommon.test_world).2).1 = inr got
  ∧ js_get "companyHandle" created = JStr "c1"
  ∧ js_get "companyHandle" got = JUndefined
  ∧ ¬ same_fields ["id"] created got.
Proof.
  intros created got.
  split; [by vm_compute|]. split; [by vm_compute|].
  split; [done|]. split; [done|].
  intros Hsame.
  destruct (Hsame "companyHandle") as [Hhas _]; [done | | done].
  apply not_elem_of_cons. split; [done | apply not_elem_of_nil].
Qed.

(** ** What a company lookup returns *)

Lemma company_get_fields (handle : string) (w w' : world) (company : jsval) :
  Company.get handle w = (inr company, w') →
  ∃ r, r ∈ companies_tbl (db w) ∧ co_handle r = handle
       ∧ company = JObj (project Company.columns r)
       ∧ js_has "jobs" company = false.
Proof.
  rewrite company_get_run.
  destruct (List.filter _ _) as [|r rest] eqn:Hf; simpl; [done|].
  intros [= <- <-]. exists r.
  assert (r ∈ List.filter (λ r, company_hit handle r && true)
                          (companies_tbl (db w))) as Hr by (rewrite Hf; left).
  apply elem_of_filter_bool in Hr as [Hin Hhit].
  rewrite andb_true_r in Hhit. apply sql_eqb_text in Hhit. done.
Qed.

(** C2, the company half, at the test fixture: company [c1] has three
    jobs, and [Company.get] returns its five columns with no [jobs]
    property. *)
Theorem company_get_omits_jobs :
  length (List.filter (λ j, String.eqb (jb_company_handle j) "c1")
                      (jobs_tbl TestCommon.test_store)) = 3%nat
  ∧ (Company.get "c1" TestCommon.test_world).1
    = inr (JObj [("handle", JStr "c1"); ("name", JStr "C1");
                 ("description", JStr "Desc1"); ("numEmployees", JNum 1);
                 ("logoUrl", JStr "http://c1.img")])
  ∧ (∀ company, (Company.get "c1" TestCommon.test_world).1 = inr company →
                js_has "jobs" company = false
                ∧ js_get "jobs" company = JUndefined).
Proof.
  split; [by vm_compute|]. split; [by vm_compute|].
  intros company. vm_compute. by intros [= <-].
Qed.

(* ================================================================== *)
(** * Further properties of the sources *)

(** ** The gates of [middleware/auth.js] *)

(** X1.  The three gates are nested: whoever passes [ensureAdmin] passes
    [ensureCorrectUserOrAdmin] for every target username, and whoever passes
    that passes [ensureLoggedIn]; a request that [ensureLoggedIn] refuses is
    refused by the other two with Unauthorized.  None of the gates writes
    [res.locals]. *)
Theorem gates_nested (req req' : request) (res : locals) :
  ((ensureAdmin req res).2 = Next →
   (ensureCorrectUserOrAdmin req' res).2 = Next)
  ∧ ((ensureCorrectUserOrAdmin req res).2 = Next →
     (ensureLoggedIn req' res).2 = Next)
  ∧ ((ensureLoggedIn req res).2 ≠ Next →
     (ensureAdmin req' res).2 = NextErr UnauthorizedError
     ∧ (ensureCorrectUserOrAdmin req' res).2 = NextErr UnauthorizedError)
  ∧ (ensureLoggedIn req res).1 = res
  ∧ (ensureAdmin req res).1 = res.
Proof.
  unfold ensureAdmin, ensureCorrectUserOrAdmin, ensureLoggedIn.
  destruct (truthy (user res)); simpl;
    destruct (truthy (js_get "isAdmin" (user res))); simpl;
    try destruct (strict_eq _ (params_username req)); simpl;
    repeat split; try done; intros; try done;
    by destruct (strict_eq _ (params_username req')).
Qed.

Lemma gates_nested_witness :
  (ensureCorrectUserOrAdmin
     {| authorization := None; params_username := JStr "u1" |}
     {| user := JObj [("username", JStr "admin"); ("isAdmin", JBool true)] |}).2
  = Next.
Proof.
  refine (proj1 (gates_nested
            {| authorization := None; params_username := JUndefined |}
            _ _) _).
  reflexivity.
Defined.

(** X2.  Identity extraction followed by a gate, on a request that comes
    with no identity in [res.locals]: [ensureLoggedIn] lets the request
    through exactly when the header is non-empty and the codec accepts its
    token with a truthy payload; [ensureAdmin] asks in addition for a truthy
    [isAdmin] in the payload; and a request without a header is refused by
    all three gates with Unauthorized. *)
Theorem authenticate_then_gate (jwt_verify : string → option jsval)
    (req : request) :
  let anonymous := {| user := JUndefined |} in
  let accepted (payload : jsval) :=
    ∃ authHeader, authorization req = Some authHeader
                  ∧ authHeader ≠ EmptyString
                  ∧ jwt_verify (token_of authHeader) = Some payload in
  ((and_then (authenticateJWT jwt_verify) ensureLoggedIn req anonymous).2 = Next
   ↔ ∃ payload, accepted payload ∧ truthy payload = true)
  ∧ ((and_then (authenticateJWT jwt_verify) ensureAdmin req anonymous).2 = Next
     ↔ ∃ payload, accepted payload ∧ truthy payload = true
                  ∧ truthy (js_get "isAdmin" payload) = true)
  ∧ (authorization req = None →
     (and_then (authenticateJWT jwt_verify) ensureLoggedIn req anonymous).2
     = NextErr UnauthorizedError
     ∧ (and_then (authenticateJWT jwt_verify) ensureAdmin req anonymous).2
       = NextErr UnauthorizedError
     ∧ (and_then (authenticateJWT jwt_verify) ensureCorrectUserOrAdmin
                 req anonymous).2
       = NextErr UnauthorizedError).
Proof.
  intros anonymous accepted. subst accepted.
  unfold and_then, authenticateJWT, token_of,
    ensureLoggedIn, ensureAdmin, ensureCorrectUserOrAdmin.
  destruct (authorization req) as [[|c h]|] eqn:Hh.
  - simpl. repeat split; try done;
      intros (p & (h0 & [= <-] & Hne & _) & _); done.
  - set (tok := trim (replace_bearer (String c h))).
    cbn [truthy negb String.eqb].
    destruct (jwt_verify tok) as [p|] eqn:Hv; simpl.
    + split; [|split; [|done]].
      * destruct (truthy p) eqn:Hp; simpl; split; try done.
        -- intros _. exists p. split; [|done]. by eexists.
        -- intros (p' & (h0 & [= <-] & _ & Hv') & Hp'). unfold tok in *; congruence.
      * destruct (truthy p) eqn:Hp; simpl;
          [destruct (truthy (js_get "isAdmin" p)) eqn:Ha; simpl|]; split;
          try done.
        -- intros _. exists p. split; [|done]. by eexists.
        -- intros (p' & (h0 & [= <-] & _ & Hv') & Hp' & Ha'). unfold tok in *; congruence.
        -- intros (p' & (h0 & [= <-] & _ & Hv') & Hp' & Ha'). unfold tok in *; congruence.
    + repeat split; try done;
        intros (p' & (h0 & [= <-] & _ & Hv') & _); unfold tok in *; congruence.
  - simpl. repeat split; try done; intros (p & (h0 & [=] & _) & _).
Qed.

Lemma authenticate_then_gate_witness :
  let verify := λ t, if String.eqb t "tok"
                     then Some (JObj [("username", JStr "u1")]) else None in
  (and_then (authenticateJWT verify) ensureLoggedIn
     {| authorization := None; params_username := JStr "u1" |}
     {| user := JUndefined |}).2 = NextErr UnauthorizedError.
Proof.
  intros verify.
  refine (proj1 (proj2 (proj2 (authenticate_then_gate verify _)) _)).
  reflexivity.
Defined.

(** X3.  White space around the token does not matter to identity
    extraction: a header made of the prefix, any run of white space, a token
    with no white space at its ends, and any run of white space again is
    treated exactly as the prefix followed by the token alone; the token
    handed to the codec is the bare token. *)
Theorem authenticateJWT_padding (jwt_verify : string → option jsval)
    (a t b : string) (p : jsval) (res : locals) :
  blank a = true → blank b = true → trim t = t →
  token_of ("Bearer " +:+ a +:+ t +:+ b) = t
  ∧ authenticateJWT jwt_verify
      {| authorization := Some ("Bearer " +:+ a +:+ t +:+ b);
         params_username := p |} res
    = authenticateJWT jwt_verify
        {| authorization := Some ("Bearer " +:+ t); params_username := p |}
        res.
Proof.
  intros Ha Hb Ht.
  assert (token_of ("Bearer " +:+ a +:+ t +:+ b) = t) as Hpad.
  { unfold token_of. rewrite replace_bearer_upper. by apply trim_padded. }
  assert (token_of ("Bearer " +:+ t) = t) as Hbare.
  { unfold token_of. by rewrite replace_bearer_upper. }
  split; [done|].
  unfold authenticateJWT. cbn [authorization].
  fold (token_of ("Bearer " +:+ a +:+ t +:+ b)).
  fold (token_of ("Bearer " +:+ t)).
  rewrite Hpad, Hbare. reflexivity.
Qed.

Lemma authenticateJWT_padding_witness :
  token_of ("Bearer " +:+ "  " +:+ "tok" +:+ " ") = "tok".
Proof.
  refine (proj1 (authenticateJWT_padding (λ _, None) "  " "tok" " "
                   JUndefined {| user := JUndefined |} _ _ _));
    reflexivity.
Defined.

(** ** What a call leaves in the store *)

Lemma exec_error_kind (stmt : statement) (params : list jsval) (s s' : store)
    (e : error) :
  exec stmt params s = (inl e, s') →
  (∃ m, e = StoreError m) ∧ same_tables s s'.
Proof.
  unfold exec, refused, same_tables.
  destruct stmt as [sel [] wh o|sj sc wh o|[] cols ret|[] set wh ret|[] wh ret];
    repeat match goal with
           | |- context [match ?x with _ => _ end] => destruct x
           end;
    intros [= <- <-]; eauto.
Qed.

Lemma update_rows_unchanged {R : Type} (hit : R → bool) (f : R → option R)
    (rows rows' : list R) :
  update_rows hit f rows = Some (rows', []) → rows' = rows.
Proof.
  revert rows'. induction rows as [|r rows IH]; simpl; intros rows'.
  - by intros [= <-].
  - destruct (update_rows hit f rows) as [[rest ch]|]; [|done]. simpl.
    destruct (hit r).
    + destruct (f r); [|done]. simpl. by intros [=].
    + intros [= <- ->]. by rewrite (IH rest).
Qed.

Lemma filter_none {A : Type} (p : A → bool) (l : list A) :
  List.filter p l = [] → List.filter (λ x, negb (p x)) l = l.
Proof.
  induction l as [|x l IH]; [done|]. simpl.
  destruct (p x); [done|]. simpl. intros Hnil. by rewrite (IH Hnil).
Qed.

Lemma filter_all {A : Type} (l : list A) : List.filter (λ _, true) l = l.
Proof. induction l as [|x l IH]; [done|]. simpl. by rewrite IH. Qed.

Lemma exec_no_rows (stmt : statement) (params : list jsval) (s s' : store) :
  exec stmt params s = (inr [], s') → same_tables s s'.
Proof.
  unfold exec, refused, same_tables.
  destruct stmt as [sel [] wh o|sj sc wh o|[] cols ret|[] set wh ret|[] wh ret].
  1-3: destruct (run_select _ _ _ _ _); by intros [= _ <-].
  1-2: repeat match goal with
              | |- context [match ?x with _ => _ end] => destruct x
              end; done.
  1-2: destruct (negb _); [done|];
       destruct (compile_where _ _ _) as [hit|]; [|done];
       destruct (bind_set _ _) as [asg|]; [|done];
       destruct (update_rows _ _ _) as [[rows' changed]|] eqn:Hu; [|done];
       destruct (forallb _ changed); [|done];
       intros [= Hrows <-];
       apply fmap_nil_inv, fmap_nil_inv in Hrows; subst changed;
       apply update_rows_unchanged in Hu as ->; done.
  - destruct (compile_where _ _ _) as [hit|]; [|done].
    intros [= Hrows <-]. apply fmap_nil_inv in Hrows.
    rewrite Hrows. simpl. by rewrite (filter_none _ _ Hrows), filter_all.
  - destruct (compile_where _ _ _) as [hit|]; [|done].
    intros [= Hrows <-]. apply fmap_nil_inv in Hrows.
    simpl. by rewrite (filter_none _ _ Hrows).
Qed.

Lemma exec_select_keeps (sel : select_list) (t : table) (wh : list pred)
    (o : option string) (params : list jsval) (s : store) :
  (exec (SELECT sel t wh o) params s).2 = s.
Proof. unfold exec. destruct t; by destruct (run_select _ _ _ _ _). Qed.

Lemma exec_join_keeps (sj sc : select_list) (wh : list pred)
    (o : option string) (params : list jsval) (s : store) :
  (exec (SELECT_JOBS_LEFT_JOIN_COMPANIES sj sc wh o) params s).2 = s.
Proof. unfold exec. by destruct (run_select _ _ _ _ _). Qed.

Ltac run_statement Hex :=
  unfold mbind, M_bind; rewrite db_query_run;
  destruct (exec _ _ _) as [[?|[|? ?]] ?] eqn:Hex;
  cbn [fst snd rows0 truthy negb].

(** X4.  A call of a [Company] mutator that ends in an error leaves both
    tables as they were: a refused statement writes nothing, a not-found is
    raised only after an [UPDATE] or [DELETE] that met no row, and the
    duplicate check of [create] comes before its [INSERT]. *)
Theorem company_failure_keeps_tables (w w' : world) (e : error) :
  (∀ data, Company.create data w = (inl e, w') → same_tables (db w) (db w'))
  ∧ (∀ handle data,
       Company.update handle data w = (inl e, w') →
       same_tables (db w) (db w'))
  ∧ (∀ handle, Company.remove handle w = (inl e, w') →
               same_tables (db w) (db w')).
Proof.
  split; [|split].
  - intros data. unfold Company.create, mbind, M_bind.
    rewrite db_query_run.
    pose proof (exec_select_keeps [("handle", "handle")] companies
                  [PEq "handle" 1] None [obj_get "handle" data] (db w)) as Hs.
    destruct (exec _ _ (db w)) as [[e1|dup] s1]; cbn [fst snd] in *; subst s1.
    { by intros [= <- <-]. }
    destruct (truthy (rows0 dup)); [by intros [= <- <-]|].
    rewrite db_query_run. cbn [db].
    destruct (exec _ _ (db w)) as [[e2|rows] s2] eqn:Hex; cbn [fst snd];
      [|done].
    intros [= <- <-]. by apply exec_error_kind in Hex as [_ ?].
  - intros h data. unfold Company.update, mbind at 1, M_bind at 1, lift.
    destruct (sqlForPartialUpdate data Company.jsToSql) as [e1|frag];
      [by intros [= <- <-]|].
    run_statement Hex; intros [= <- <-]; cbn [db].
    + by apply exec_error_kind in Hex as [_ ?].
    + by apply exec_no_rows in Hex.
  - intros h. unfold Company.remove. run_statement Hex; intros [= <- <-]; cbn [db].
    + by apply exec_error_kind in Hex as [_ ?].
    + by apply exec_no_rows in Hex.
Qed.

Lemma company_failure_keeps_tables_witness :
  same_tables TestCommon.test_store
    (db (Company.remove "nope" TestCommon.test_world).2).
Proof.
  refine (proj2 (proj2 (company_failure_keeps_tables
            TestCommon.test_world _ (NotFoundError "No company: nope")))
            "nope" _).
  vm_compute. reflexivity.
Defined.

(** X5.  A call of a [Job] mutator that ends in an error leaves both tables
    as they were: a refused [INSERT] or [UPDATE] writes nothing, and a
    not-found is raised only after an [UPDATE] or [DELETE] that met no
    row. *)
Theorem job_failure_keeps_tables (w w' : world) (e : error) :
  (∀ data, Job.create data w = (inl e, w') → same_tables (db w) (db w'))
  ∧ (∀ id data, Job.update id data w = (inl e, w') →
                same_tables (db w) (db w'))
  ∧ (∀ id, Job.remove id w = (inl e, w') → same_tables (db w) (db w')).
Proof.
  split; [|split].
  - intros data. unfold Job.create, mbind, M_bind. rewrite db_query_run.
    destruct (exec _ _ (db w)) as [[e1|rows] s1] eqn:Hex; cbn [fst snd];
      [|done].
    intros [= <- <-]. by apply exec_error_kind in Hex as [_ ?].
  - intros id data. unfold Job.update, mbind at 1, M_bind at 1, lift.
    destruct (sqlForPartialUpdate data ∅) as [e1|frag];
      [by intros [= <- <-]|].
    run_statement Hex; intros [= <- <-]; cbn [db].
    + by apply exec_error_kind in Hex as [_ ?].
    + by apply exec_no_rows in Hex.
  - intros id. unfold Job.remove. run_statement Hex; intros [= <- <-]; cbn [db].
    + by apply exec_error_kind in Hex as [_ ?].
    + by apply exec_no_rows in Hex.
Qed.

Lemma job_failure_keeps_tables_witness :
  same_tables TestCommon.test_store
    (db (Job.remove 0 TestCommon.test_world).2).
Proof.
  refine (proj2 (proj2 (job_failure_keeps_tables
            TestCommon.test_world _ (NotFoundError "No job: 0")))
            0 _).
  vm_compute. reflexivity.
Defined.

Lemma company_findAll_world (f : Company.filters) (w : world) :
  ∃ qs, (Company.findAll f w).2 = {| db := db w; queries := queries w ++ qs |}
        ∧ (length qs ≤ 1)%nat.
Proof.
  unfold Company.findAll, mbind at 1, M_bind at 1.
  destruct (Company.minEmployees f) as [lo|];
    [destruct (match Company.maxEmployees f with
               | Some maxE => bool_decide (lo > maxE) | None => false end)|].
  1: { exists []. unfold throw. cbn [snd]. rewrite app_nil_r.
       split; [by destruct w | simpl; lia]. }
  all: unfold mret at 1, M_ret at 1; cbn beta iota;
    match goal with
    | |- context [let '(_, _) := ?x in _] => destruct x as [ps fc]
    end;
    match goal with
    | |- context [let '(_, _) := ?x in _] => destruct x as [ps' fc']
    end;
    rewrite M_bind_ret, db_query_run; cbn [snd];
    rewrite exec_select_keeps; by eexists [_].
Qed.

(** X6.  The lookups and the searches are reads: whatever they return,
    [Company.get], [Company.findAll], [Job.get] and [Job.findAll] leave the
    store exactly as it was; [Company.get] and [Job.findAll] send one
    statement, [Company.findAll] at most one, [Job.get] at most two. *)
Theorem reads_keep_store (w : world) :
  (∀ handle,
     db (Company.get handle w).2 = db w
     ∧ length (queries (Company.get handle w).2) = S (length (queries w)))
  ∧ (∀ f,
       db (Company.findAll f w).2 = db w
       ∧ (length (queries (Company.findAll f w).2) ≤ S (length (queries w)))%nat)
  ∧ (∀ id,
       db (Job.get id w).2 = db w
       ∧ (S (length (queries w)) ≤ length (queries (Job.get id w).2)
          ≤ S (S (length (queries w))))%nat)
  ∧ (∀ f,
       db (Job.findAll f w).2 = db w
       ∧ length (queries (Job.findAll f w).2) = S (length (queries w))).
Proof.
  split; [|split; [|split]].
  - intros h. rewrite company_get_run. cbn zeta.
    destruct (List.filter _ _); cbn [snd db queries];
      rewrite length_app; simpl; split; (done || lia).
  - intros f. destruct (company_findAll_world f w) as (qs & -> & Hqs).
    cbn [db queries]. rewrite length_app. split; [done|lia].
  - intros id. pose proof (job_get_run id w) as Hrun.
    unfold Job.get, mbind, M_bind in *.
    rewrite db_query_run in *.
    rewrite (exec_select_job _ _ _ id) in * by done. cbn [fst snd] in *.
    destruct (List.filter _ (jobs_tbl (db w))) as [|j js].
    + cbn. rewrite length_app. simpl. split; [done|lia].
    + cbn [fmap list_fmap rows0 truthy negb].
      rewrite db_query_run. cbn [db queries].
      rewrite (exec_select_company _ _ _ (jb_company_handle j)) by done.
      cbn. rewrite !length_app. simpl. split; [done|lia].
  - intros f. rewrite job_findAll_run, db_query_run. cbn [snd db queries].
    rewrite exec_join_keeps, length_app. simpl. split; (done || lia).
Qed.

(** ** [Company.create] *)

(** X7.  For a handle given as a string the store takes,
    [Company.create] ends in BadRequest exactly when some company of the
    store already has that handle; it then says which handle is the
    duplicate, has sent the duplicate check and nothing else, and the store
    is as it was. *)
Theorem company_create_duplicate (data : obj) (w : world) (h : string) :
  obj_get "handle" data = JStr h → typed TText (JStr h) →
  ((∃ m, (Company.create data w).1 = inl (BadRequestError m))
   ↔ company_exists (db w) h)
  ∧ (company_exists (db w) h →
     Company.create data w
     = (inl (BadRequestError ("Duplicate company: " +:+ h)),
        {| db := db w;
           queries := queries w
             ++ [(SELECT [("handle", "handle")] companies
                         [PEq "handle" 1] None, [JStr h])] |})).
Proof.
  intros Hh _.
  assert (company_exists (db w) h →
          Company.create data w
          = (inl (BadRequestError ("Duplicate company: " +:+ h)),
             {| db := db w;
                queries := queries w
                  ++ [(SELECT [("handle", "handle")] companies
                              [PEq "handle" 1] None, [JStr h])] |})) as Hdup.
  { intros Hex. unfold Company.create, mbind, M_bind.
    rewrite db_query_run, Hh, (exec_select_company _ _ _ h) by done.
    cbn [fst snd]. apply company_exists_hits in Hex.
    by destruct (List.filter _ _). }
  split; [|exact Hdup]. split.
  - intros [m Hm]. unfold Company.create, mbind, M_bind in Hm.
    rewrite db_query_run, Hh, (exec_select_company _ _ _ h) in Hm by done.
    cbn [fst snd] in Hm. apply company_exists_hits.
    destruct (List.filter _ (companies_tbl (db w))) as [|r rs]; [|done].
    cbn [fmap list_fmap rows0 truthy] in Hm.
    rewrite db_query_run in Hm. cbn [db fst] in Hm.
    destruct (exec _ _ (db w)) as [[e|rows] s2] eqn:Hins; cbn [fst snd] in Hm;
      [|done].
    apply exec_error_kind in Hins as [[m' ->] _]. done.
  - intros Hex. rewrite (Hdup Hex). by eexists.
Qed.

Lemma company_create_duplicate_witness :
  Company.create (TestCommon.company "c1" "Other" 7 "D" "http://o.img")
                 TestCommon.test_world
  = (inl (BadRequestError ("Duplicate company: " +:+ "c1")),
     {| db := TestCommon.test_store;
        queries := [] ++ [(SELECT [("handle", "handle")] companies
                                  [PEq "handle" 1] None, [JStr "c1"])] |}).
Proof.
  refine (proj2 (company_create_duplicate _ TestCommon.test_world "c1" _ _) _).
  - reflexivity.
  - reflexivity.
  - eexists. split; [left|reflexivity].
Defined.

Lemma bind_param_to_js (ty : coltype) (v : jsval) (sv : sqlval) :
  ty ≠ TNumeric → bind_param ty v = Some sv →
  to_js sv = null_if_undefined v.
Proof.
  destruct v, ty; simpl; intros Hty Hb; try done; by injection Hb as <-.
Qed.

Ltac name_bound c v H :=
  match goal with
  | Hb : bound _ c _ = Some ?x |- _ => rename x into v; rename Hb into H
  end.

Lemma exec_insert_company_fields (v1 v2 v3 v4 v5 : jsval) (s s' : store)
    (rows : list obj) :
  exec (INSERT companies
          ["handle"; "name"; "description"; "num_employees"; "logo_url"]
          Company.columns)
       [v1; v2; v3; v4; v5] s = (inr rows, s') →
  ∃ r, rows = [project Company.columns r]
       ∧ s' = with_companies s (companies_tbl s ++ [r])
       ∧ project Company.columns r
         = [("handle", null_if_undefined v1); ("name", null_if_undefined v2);
            ("description", null_if_undefined v3);
            ("numEmployees", null_if_undefined v4);
            ("logoUrl", null_if_undefined v5)]
       ∧ v1 = JStr (co_handle r) ∧ v2 = JStr (co_name r)
       ∧ v3 = JStr (co_description r).
Proof.
  unfold exec.
  destruct (bind_set _ _) as [asg|] eqn:Hasg; [|done].
  cbn [mbind option_bind].
  destruct (make_row (valuation asg)) as [r|] eqn:Hrow; [|done].
  destruct (company_ok _ r) eqn:Hok; [|done].
  intros [= <- <-]. exists r. split; [done|]. split; [done|].
  apply bind_set_inv in Hasg.
  change (positions ["handle"; "name"; "description"; "num_employees"; "logo_url"])
    with [("handle", 1%nat); ("name", 2%nat); ("description", 3%nat);
          ("num_employees", 4%nat); ("logo_url", 5%nat)] in Hasg.
  invert_Forall2. simpl in Hrow.
  name_bound "handle" q1 B1. name_bound "name" q2 B2.
  name_bound "description" q3 B3. name_bound "num_employees" q4 B4.
  name_bound "logo_url" q5 B5.
  unfold bound in *. simpl in B1, B2, B3, B4, B5.
  destruct q1 as [| |h|]; try done. destruct q2 as [| |n|]; try done.
  destruct q3 as [| |d|]; try done. simpl in Hrow.
  pose proof (bind_param_to_js TText v1 _ ltac:(done) B1) as E1.
  pose proof (bind_param_to_js TText v2 _ ltac:(done) B2) as E2.
  pose proof (bind_param_to_js TText v3 _ ltac:(done) B3) as E3.
  pose proof (bind_param_to_js TInt v4 _ ltac:(done) B4) as E4.
  pose proof (bind_param_to_js TText v5 _ ltac:(done) B5) as E5.
  assert (v1 = JStr h) as -> by (by eapply bind_param_text).
  assert (v2 = JStr n) as -> by (by eapply bind_param_text).
  assert (v3 = JStr d) as -> by (by eapply bind_param_text).
  destruct q4 as [|e| |]; try done; destruct q5 as [| |l|]; try done;
    simpl in Hrow; injection Hrow as <-;
    rewrite <- E4, <- E5; done.
Qed.

(** X8.  What a successful [Company.create] returns and stores, for data
    with typed values: the result has the five fields [handle], [name],
    [description], [numEmployees] and [logoUrl], in that order, each with
    the value given in the data ([null] where the data has none); no
    company had the handle before; one row is added to the companies and
    the jobs are as they were. *)
Theorem company_create_stores (data : obj) (w w1 : world) (created : jsval) :
  company_data_typed data →
  Company.create data w = (inr created, w1) →
  created
  = JObj [("handle", null_if_undefined (obj_get "handle" data));
          ("name", null_if_undefined (obj_get "name" data));
          ("description", null_if_undefined (obj_get "description" data));
          ("numEmployees", null_if_undefined (obj_get "numEmployees" data));
          ("logoUrl", null_if_undefined (obj_get "logoUrl" data))]
  ∧ (∀ h, obj_get "handle" data = JStr h → ¬ company_exists (db w) h)
  ∧ (∃ r, companies_tbl (db w1) = companies_tbl (db w) ++ [r])
  ∧ jobs_tbl (db w1) = jobs_tbl (db w).
Proof.
  intros _.
  unfold Company.create, mbind, M_bind. rewrite db_query_run.
  destruct (exec _ [obj_get "handle" data] (db w)) as [[e|dup] s1] eqn:Hdup;
    [done|].
  cbn [fst snd]. destruct (truthy (rows0 dup)) eqn:Hno; [done|].
  rewrite db_query_run. cbn [db].
  destruct (exec _ _ s1) as [[e|rows] s2] eqn:Hins; [done|].
  cbn [fst snd]. intros [= <- <-].
  apply exec_insert_company_fields
    in Hins as (r & -> & -> & Hfields & Hh & Hn & Hd).
  rewrite Hh in Hdup.
  rewrite (exec_select_company _ _ _ (co_handle r)) in Hdup by done.
  injection Hdup as <- <-. apply rows0_fmap_falsy in Hno.
  cbn [rows0]. rewrite Hfields. split; [done|].
  split.
  { intros h Hh'. rewrite Hh in Hh'. injection Hh' as <-.
    rewrite company_exists_hits. by intros []. }
  split; [by exists r | done].
Qed.

Lemma company_create_stores_witness :
  ∃ r, companies_tbl
         (db (Company.create
                (TestCommon.company "new" "New" 10 "DescNew" "http://new.img")
                TestCommon.test_world).2)
       = companies_tbl TestCommon.test_store ++ [r].
Proof.
  refine (proj1 (proj2 (proj2 (company_create_stores
            (TestCommon.company "new" "New" 10 "DescNew" "http://new.img")
            TestCommon.test_world _ _ _ _)))).
  - repeat split; unfold typed, int4; simpl; lia || reflexivity.
  - vm_compute. reflexivity.
Defined.

(** ** [Job.create] *)

Lemma job_create_inv (data : obj) (w w1 : world) (created : jsval) :
  Job.create data w = (inr created, w1) →
  ∃ r, created = JObj (project Job.columns r)
       ∧ db w1 = with_jobs (next_id (db w)) (jobs_tbl (db w) ++ [r])
       ∧ jb_id r = jobs_id_seq (db w)
       ∧ job_ok (db w1) r = true
       ∧ obj_get "title" data = JStr (jb_title r)
       ∧ to_js (from_option SInt SNull (jb_salary r))
         = null_if_undefined (obj_get "salary" data)
       ∧ (∃ n, bind_param TNumeric (obj_get "equity" data) = Some n
               ∧ to_js (from_option SNumeric SNull (jb_equity r)) = to_js n)
       ∧ obj_get "companyHandle" data = JStr (jb_company_handle r).
Proof.
  unfold Job.create, mbind, M_bind. rewrite db_query_run.
  destruct (exec _ _ (db w)) as [[e|rows] s1] eqn:Hins; [done|].
  cbn [fst snd]. intros [= <- <-]. revert Hins. unfold exec.
  destruct (bind_set _ _) as [asg|] eqn:Hasg; [|done].
  cbn [mbind option_bind].
  destruct (make_row _) as [r|] eqn:Hrow; [|done].
  destruct (job_ok _ r) eqn:Hok; [|done].
  intros [= <- <-]. exists r. cbn [rows0 db].
  split; [done|]. split; [done|].
  apply bind_set_inv in Hasg.
  change (positions ["title"; "salary"; "equity"; "company_handle"])
    with [("title", 1%nat); ("salary", 2%nat); ("equity", 3%nat);
          ("company_handle", 4%nat)] in Hasg.
  invert_Forall2. simpl in Hrow.
  name_bound "title" st Bt. name_bound "salary" ss Bs.
  name_bound "equity" se Be. name_bound "company_handle" sh Bh.
  unfold bound in *. simpl in Bt, Bs, Be, Bh.
  destruct st as [| |t|]; try done.
  pose proof (bind_param_to_js TInt _ _ ltac:(done) Bs) as E2.
  assert (obj_get "title" data = JStr t) as Ht by (by eapply bind_param_text).
  simpl in Hrow.
  destruct (as_opt_int ss) as [sal|] eqn:Hs2; [|done]. simpl in Hrow.
  destruct (as_opt_numeric se) as [eq|] eqn:Hs3; [|done]. simpl in Hrow.
  destruct sh as [| |h|]; try done.
  assert (obj_get "companyHandle" data = JStr h) as Hh
    by (by eapply bind_param_text).
  simpl in Hrow. injection Hrow as <-. cbn [jb_id jb_title jb_salary
    jb_equity jb_company_handle].
  split; [done|]. split; [done|]. split; [done|].
  split; [rewrite <- E2; destruct ss; simpl in Hs2; by simplify_eq|].
  split; [|done].
  exists se. split; [done|].
  destruct se; simpl in Hs3; by simplify_eq.
Qed.

(** X9.  What a successful [Job.create] returns and stores, for data with
    typed values: the result carries the next value of the id sequence as
    [id] and the [title], [salary] and [companyHandle] of the data ([null]
    where the data has none); its [equity] is what the store hands back
    for the value given read as a [NUMERIC] (its decimal string, or
    [null]); the sequence moves on by one, one row is added to the jobs and
    the companies are as they were. *)
Theorem job_create_stores (data : obj) (w w1 : world) (created : jsval) :
  job_data_typed data →
  Job.create data w = (inr created, w1) →
  js_get "id" created = JNum (jobs_id_seq (db w))
  ∧ jobs_id_seq (db w1) = jobs_id_seq (db w) + 1
  ∧ js_get "title" created = null_if_undefined (obj_get "title" data)
  ∧ js_get "salary" created = null_if_undefined (obj_get "salary" data)
  ∧ (∃ n, bind_param TNumeric (obj_get "equity" data) = Some n
          ∧ js_get "equity" created = to_js n)
  ∧ js_get "companyHandle" created
    = null_if_undefined (obj_get "companyHandle" data)
  ∧ (∃ r, jobs_tbl (db w1) = jobs_tbl (db w) ++ [r])
  ∧ companies_tbl (db w1) = companies_tbl (db w).
Proof.
  intros _ Hc.
  apply job_create_inv
    in Hc as (r & -> & Hdb & Hid & Hok & Ht & Hs & He & Hh).
  rewrite Hdb in *. cbn [with_jobs next_id jobs_tbl companies_tbl jobs_id_seq] in *.
  split; [cbn; by rewrite Hid|].
  split; [done|]. split; [cbn; by rewrite Ht|]. split; [exact Hs|].
  split; [exact He|].
  split; [cbn; by rewrite Hh|].
  split; [by exists r | done].
Qed.

Lemma job_create_stores_witness :
  js_get "id" (JObj [("id", JNum 4); ("title", JStr "J-new");
                     ("salary", JNum 10); ("equity", JStr "0.2");
                     ("companyHandle", JStr "c1")])
  = JNum (jobs_id_seq TestCommon.test_store).
Proof.
  refine (proj1 (job_create_stores new_job TestCommon.test_world _ _ _ _)).
  - repeat split; unfold typed, int4; simpl; lia || reflexivity || by eexists.
  - vm_compute. reflexivity.
Defined.

(** X10.  Two jobs created one after the other get consecutive ids: the
    second id is the first plus one, so the two differ. *)
Theorem job_create_consecutive_ids (d1 d2 : obj) (w w1 w2 : world)
    (j1 j2 : jsval) :
  Job.create d1 w = (inr j1, w1) →
  Job.create d2 w1 = (inr j2, w2) →
  ∃ id, js_get "id" j1 = JNum id ∧ js_get "id" j2 = JNum (id + 1).
Proof.
  intros H1 H2.
  apply job_create_inv in H1 as (r1 & -> & Hdb1 & Hid1 & _).
  apply job_create_inv in H2 as (r2 & -> & _ & Hid2 & _).
  exists (jb_id r1). split; [done|].
  cbn. by rewrite Hid2, Hdb1, Hid1.
Qed.

Lemma job_create_consecutive_ids_witness :
  ∃ id,
    js_get "id" (JObj [("id", JNum 4); ("title", JStr "J-new");
                       ("salary", JNum 10); ("equity", JStr "0.2");
                       ("companyHandle", JStr "c1")]) = JNum id
    ∧ js_get "id" (JObj [("id", JNum 5); ("title", JStr "J-new");
                         ("salary", JNum 10); ("equity", JStr "0.2");
                         ("companyHandle", JStr "c1")]) = JNum (id + 1).
Proof.
  refine (job_create_consecutive_ids new_job new_job TestCommon.test_world
            _ _ _ _ _ _); vm_compute; reflexivity.
Defined.

(** ** The filtered searches *)

Section sorted.
Context {R : Type} (leb : R → R → bool).
Hypothesis leb_total : ∀ a b, leb a b = false → leb b a = true.

Lemma insert_by_perm (x : R) (l : list R) : insert_by leb x l ≡ₚ x :: l.
Proof.
  induction l as [|y l IH]; [done|]. simpl.
  destruct (leb x y); [done|]. rewrite IH. apply Permutation_swap.
Qed.

Lemma insertion_sort_perm (l : list R) : foldr (insert_by leb) [] l ≡ₚ l.
Proof.
  induction l as [|x l IH]; [done|]. simpl.
  by rewrite insert_by_perm, IH.
Qed.

Lemma insert_by_sorted (x : R) (l : list R) :
  Sorted (λ a b, leb a b = true) l →
  Sorted (λ a b, leb a b = true) (insert_by leb x l).
Proof.
  induction l as [|y l IH]; simpl; intros Hs.
  - by repeat constructor.
  - destruct (leb x y) eqn:Hxy.
    + constructor; [done|]. by constructor.
    + apply Sorted_inv in Hs as [Hs Hhd].
      constructor; [by apply IH|].
      destruct l as [|z l]; simpl.
      * constructor. by apply leb_total.
      * destruct (leb x z); constructor; [by apply leb_total|].
        by apply HdRel_inv in Hhd.
Qed.

Lemma insertion_sort_sorted (l : list R) :
  Sorted (λ a b, leb a b = true) (foldr (insert_by leb) [] l).
Proof.
  induction l as [|x l IH]; simpl; [constructor|]. by apply insert_by_sorted.
Qed.
End sorted.

Lemma sql_gtb_asym (x y : sqlval) : sql_gtb x y = true → sql_gtb y x = false.
Proof.
  unfold sql_gtb.
  destruct x as [|a|a|a], y as [|b|b|b]; cbn [sql_compare to_decimal];
    try done; unfold numeric_compare;
    try (rewrite Z.compare_antisym;
         by destruct (_ ?= _)%Z).
  rewrite String.compare_antisym. by destruct (String.compare b a).
Qed.

Lemma c_locale_total : total_order c_locale.
Proof.
  intros a b. cbn [text_leb].
  destruct (sql_gtb (SText a) (SText b)) eqn:Hab; [|by left].
  right. by rewrite (sql_gtb_asym _ _ Hab).
Qed.

Lemma order_leb_total (loc : locale) (a b : sqlval) :
  total_order loc → order_leb loc a b = false → order_leb loc b a = true.
Proof.
  intros Htotal. unfold order_leb.
  destruct a as [|x|x|x], b as [|y|y|y]; try done.
  all: try (intros Hgt%negb_false_iff; apply negb_true_iff;
            by apply sql_gtb_asym).
  intros Hxy. destruct (Htotal x y) as [Hle|Hle]; congruence.
Qed.

Lemma order_rows_perm {R : Type} `{!Table R} (loc : locale) (o : option string)
    (l : list R) :
  order_rows loc o l ≡ₚ l.
Proof. destruct o; [apply insertion_sort_perm | done]. Qed.

Lemma order_rows_sorted {R : Type} `{!Table R} (loc : locale) (c : string)
    (l : list R) :
  total_order loc →
  Sorted (λ a b, order_leb loc (col_get c a) (col_get c b) = true)
         (order_rows loc (Some c) l).
Proof.
  intros Htotal.
  apply (insertion_sort_sorted
           (λ a b, order_leb loc (col_get c a) (col_get c b))).
  intros a b. by apply order_leb_total.
Qed.

Lemma filter_perm {A : Type} (p : A → bool) (l l' : list A) :
  l ≡ₚ l' → List.filter p l ≡ₚ List.filter p l'.
Proof.
  induction 1 as [|x l l' _ IH|x y l|l1 l2 l3 _ IH1 _ IH2]; simpl.
  - done.
  - destruct (p x); by rewrite IH.
  - destruct (p x), (p y); (done || apply Permutation_swap).
  - by rewrite IH1.
Qed.

Lemma filter_filter_andb {A : Type} (p q : A → bool) (l : list A) :
  List.filter p (List.filter q l) = List.filter (λ x, q x && p x) l.
Proof.
  induction l as [|x l IH]; [done|]. simpl.
  destruct (q x); simpl; [destruct (p x)|]; by rewrite IH.
Qed.

Lemma sql_geb_int (o : option Z) (lo : Z) :
  sql_geb (from_option SInt SNull o) (SInt lo)
  = match o with Some n => lo <=? n | None => false end.
Proof.
  destruct o as [n|]; [|done].
  unfold sql_geb. cbn [from_option sql_compare to_decimal].
  unfold numeric_compare. cbn [unscaled scale]. change (Z.of_nat 0) with 0.
  rewrite Z.pow_0_r, !Z.mul_1_r.
  destruct (Z.compare_spec n lo), (Z.leb_spec lo n); (done || lia).
Qed.

Lemma sql_leb_int (o : option Z) (hi : Z) :
  sql_leb (from_option SInt SNull o) (SInt hi)
  = match o with Some n => n <=? hi | None => false end.
Proof.
  destruct o as [n|]; [|done].
  unfold sql_leb. cbn [from_option sql_compare to_decimal].
  unfold numeric_compare. cbn [unscaled scale]. change (Z.of_nat 0) with 0.
  rewrite Z.pow_0_r, !Z.mul_1_r.
  destruct (Z.compare_spec n hi), (Z.leb_spec n hi); (done || lia).
Qed.

Lemma sql_gtb_equity (o : option numeric) :
  sql_gtb (from_option SNumeric SNull o) (SInt 0)
  = match o with Some d => 0 <? unscaled d | None => false end.
Proof.
  destruct o as [d|]; [|done].
  unfold sql_gtb. cbn [from_option sql_compare to_decimal].
  unfold numeric_compare. cbn [unscaled scale]. change (Z.of_nat 0) with 0.
  rewrite Z.mul_0_l, Z.pow_0_r, Z.mul_1_r.
  destruct (Z.compare_spec (unscaled d) 0), (Z.ltb_spec 0 (unscaled d));
    (done || lia).
Qed.

Lemma classic_inverted (f : Company.filters) :
  inverted_bounds f ∨ ¬ inverted_bounds f.
Proof.
  unfold inverted_bounds.
  destruct (Company.minEmployees f) as [lo|]; [|right; by intros (? & ? & ? & _)].
  destruct (Company.maxEmployees f) as [hi|];
    [|right; by intros (? & ? & _ & ? & _)].
  destruct (decide (lo > hi)) as [Hgt|Hle]; [left; by exists lo, hi|].
  right. intros (? & ? & [= <-] & [= <-] & ?). done.
Qed.

(** What [Company.findAll] sends when the bounds are not inverted, and the
    row test the store makes of it. *)
Lemma company_findAll_plan (f : Company.filters) :
  ¬ inverted_bounds f →
  ∃ ps fc,
    (∀ w, Company.findAll f w
          = db_query (SELECT Company.columns companies fc (Some "name")) ps w)
    ∧ ∀ loc, ∃ hit : company_row → bool,
        compile_where (R:=company_row) loc ps fc = Some hit
        ∧ (∀ r, hit r = company_matches loc f r).
Proof.
  intros Hn. destruct f as [n lo hi]. unfold Company.findAll, company_matches.
  cbn [Company.minEmployees Company.maxEmployees Company.name].
  destruct lo as [lo|], hi as [hi|];
    try (case_bool_decide; [exfalso; apply Hn; by exists lo, hi|]);
    (destruct n as [n|]; [destruct (String.eqb_spec n EmptyString) as [->|Hne]|]).
  all: cbn [truthy negb String.eqb].
  all: try (destruct n as [|c n]; [done|]; cbn [truthy negb String.eqb]).
  all: eexists _, _; split; [intros w; unfold mbind at 1, M_bind at 1,
         mret at 1, M_ret at 1; cbn beta iota; apply M_bind_ret|].
  all: intros loc; eexists; split;
    [unfold compile_where; cbn [mapM compile_pred length app];
     unfold bound; simpl; reflexivity|].
  all: intros r; cbn beta; rewrite ?sql_geb_int, ?sql_leb_int.
  all: rewrite ?andb_true_r, ?andb_true_l, ?andb_assoc; reflexivity.
Qed.

Lemma exec_not_bad_request (stmt : statement) (params : list jsval)
    (s : store) (m : string) :
  (exec stmt params s).1 ≠ inl (BadRequestError m).
Proof.
  destruct (exec stmt params s) as [[e|rows] s'] eqn:Hex; [|done].
  apply exec_error_kind in Hex as [[m' ->] _]. done.
Qed.

(** C5.  When both employee-count bounds are given and the lower one is
    strictly greater than the upper one, [Company.findAll] fails with the
    BadRequest condition and leaves the world as it was: no statement has
    been sent to the store.  When the bounds are consistent, or either is
    absent, the BadRequest condition is not raised: the search is its one
    [SELECT] on the companies, and its outcome is what the store answers
    to that statement, never a BadRequest. *)
Theorem company_findAll_bounds (f : Company.filters) (w : world) :
  (inverted_bounds f →
   Company.findAll f w
   = (inl (BadRequestError "minEmployees cannot be greater than maxEmployees"),
      w))
  ∧ (¬ inverted_bounds f →
     ∃ conditions params,
       Company.findAll f w
       = db_query (SELECT Company.columns companies conditions (Some "name"))
                  params w
       ∧ (Company.findAll f w).2
         = {| db := db w;
              queries := queries w
                ++ [(SELECT Company.columns companies conditions (Some "name"),
                     params)] |}
       ∧ ∀ m, (Company.findAll f w).1 ≠ inl (BadRequestError m)).
Proof.
  split.
  - intros (lo & hi & Hlo & Hhi & Hgt). unfold Company.findAll.
    rewrite Hlo, Hhi. by rewrite bool_decide_eq_true_2.
  - intros Hn. destruct (company_findAll_plan f Hn) as (ps & fc & Hrun & _).
    exists fc, ps. rewrite Hrun, db_query_run. cbn [fst snd].
    split; [done|]. split; [by rewrite exec_select_keeps|].
    intros m. apply exec_not_bad_request.
Qed.

Lemma company_findAll_bounds_witness :
  ∃ conditions params,
    (Company.findAll {| Company.name := None; Company.minEmployees := Some 2;
                        Company.maxEmployees := Some 3 |}
                     TestCommon.test_world).2
    = {| db := TestCommon.test_store;
         queries := [(SELECT Company.columns companies conditions (Some "name"),
                      params)] |}.
Proof.
  destruct (proj2 (company_findAll_bounds
                     {| Company.name := None; Company.minEmployees := Some 2;
                        Company.maxEmployees := Some 3 |}
                     TestCommon.test_world))
    as (conditions & params & _ & Hworld & _).
  - intros (lo & hi & Hlo & Hhi & Hgt). simpl in Hlo, Hhi.
    injection Hlo as <-. injection Hhi as <-. lia.
  - by exists conditions, params.
Defined.

(** X11.  What [Company.findAll] returns.  With typed filters whose bounds
    are not inverted the search succeeds.  Whenever it returns rows, these
    are the five-column projections of exactly the companies its filters
    ask for, each one once for each row it has in the store: an employee
    count that is not [NULL] and within the bounds given, and a name the
    store's [ILIKE] matches with [%name%] when a non-empty name is given;
    they come in ascending order of name under the store's collation, and
    without any filter they are all the companies. *)
Theorem company_findAll_result (f : Company.filters) (w : world) :
  (¬ inverted_bounds f → company_filters_typed f →
   ∃ rows, (Company.findAll f w).1 = inr rows)
  ∧ ∀ rows,
      (Company.findAll f w).1 = inr rows →
      ∃ rs,
        rows = project Company.columns <$> rs
        ∧ rs ≡ₚ List.filter (company_matches (db_locale (db w)) f)
                            (companies_tbl (db w))
        ∧ (total_order (db_locale (db w)) →
           Sorted (λ a b, text_leb (db_locale (db w)) (co_name a) (co_name b)
                          = true) rs)
        ∧ (f = Company.no_filters → rs ≡ₚ companies_tbl (db w)).
Proof.
  assert (∀ ps fc hit,
            (∀ w, Company.findAll f w
                  = db_query (SELECT Company.columns companies fc (Some "name"))
                             ps w) →
            compile_where (R:=company_row) (db_locale (db w)) ps fc = Some hit →
            (Company.findAll f w).1
            = inr (project Company.columns
                     <$> order_rows (db_locale (db w)) (Some "name")
                           (List.filter hit (companies_tbl (db w))))) as Hrows.
  { intros ps fc hit Hrun Hhit. rewrite Hrun, db_query_run. cbn [fst].
    unfold exec, run_select. by rewrite Hhit. }
  split.
  - intros Hn _. destruct (company_findAll_plan f Hn) as (ps & fc & Hrun & Hplan).
    destruct (Hplan (db_locale (db w))) as (hit & Hhit & _).
    eexists. by apply (Hrows ps fc hit).
  - intros rows Hres.
    destruct (classic_inverted f) as [Hinv|Hn].
    { destruct Hinv as (lo & hi & Hlo & Hhi & Hgt).
      unfold Company.findAll in Hres. rewrite Hlo, Hhi in Hres.
      by rewrite bool_decide_eq_true_2 in Hres. }
    destruct (company_findAll_plan f Hn) as (ps & fc & Hrun & Hplan).
    destruct (Hplan (db_locale (db w))) as (hit & Hhit & Hext).
    rewrite (Hrows ps fc hit Hrun Hhit) in Hres.
    apply (inj inr) in Hres. subst rows.
    assert (List.filter hit (companies_tbl (db w))
            = List.filter (company_matches (db_locale (db w)) f)
                          (companies_tbl (db w))) as Hf
      by (by apply List.filter_ext).
    exists (order_rows (db_locale (db w)) (Some "name")
              (List.filter hit (companies_tbl (db w)))).
    split; [done|]. split; [|split].
    + by rewrite order_rows_perm, Hf.
    + intros Htotal.
      change (Sorted (λ a b : company_row,
                        order_leb (db_locale (db w))
                                  (col_get "name" a) (col_get "name" b) = true)
                     (order_rows (db_locale (db w)) (Some "name")
                        (List.filter hit (companies_tbl (db w))))).
      by apply order_rows_sorted.
    + intros ->. rewrite order_rows_perm, Hf.
      unfold company_matches. simpl. by rewrite filter_all.
Qed.

Lemma company_findAll_result_witness :
  ∃ rows rs,
    (Company.findAll {| Company.name := Some "c"; Company.minEmployees := Some 2;
                        Company.maxEmployees := None |}
                     TestCommon.test_world).1 = inr rows
    ∧ rows = project Company.columns <$> rs
    ∧ Sorted (λ a b, text_leb c_locale (co_name a) (co_name b) = true) rs.
Proof.
  pose proof (company_findAll_result
                {| Company.name := Some "c"; Company.minEmployees := Some 2;
                   Company.maxEmployees := None |} TestCommon.test_world)
    as [Hsome Hrows].
  destruct Hsome as [rows Hres].
  - intros (lo & hi & _ & Hhi & _). discriminate Hhi.
  - repeat split; unfold typed, int4; simpl; lia || reflexivity.
  - destruct (Hrows rows Hres) as (rs & Hproj & _ & Hsorted & _).
    exists rows, rs. split; [done|]. split; [done|].
    apply Hsorted, c_locale_total.
Defined.

(** The row test the store makes of a job search. *)
Lemma job_findAll_plan (f : Job.filters) (loc : locale) :
  ∃ hit : job_row → bool,
    compile_where (R:=job_row) loc (Job.search_terms f).2 (Job.search_terms f).1
    = Some hit
    ∧ (∀ r, hit r = job_matches loc f r).
Proof.
  destruct f as [m he t]. unfold Job.search_terms, job_matches.
  cbn [Job.minSalary Job.hasEquity Job.title].
  destruct m as [m|], he as [[|]|], t as [t|].
  all: eexists; split;
    [unfold compile_where; cbn [mapM compile_pred length app fst snd];
     unfold bound; simpl; reflexivity|].
  all: intros r; cbn beta; rewrite ?sql_geb_int, ?sql_gtb_equity.
  all: rewrite ?andb_true_r, ?andb_true_l, ?andb_assoc; reflexivity.
Qed.

Lemma job_findAll_rows (f : Job.filters) (w : world) :
  (Job.findAll f w).1
  = inr (order_rows (db_locale (db w)) (Some "title")
           (List.filter (job_matches (db_locale (db w)) f) (jobs_tbl (db w)))
         ≫= left_join Job.columns [("name", "companyName")] (db w)).
Proof.
  destruct (job_findAll_plan f (db_locale (db w))) as (hit & Hhit & Hext).
  rewrite job_findAll_run, db_query_run. cbn [fst]. unfold exec, run_select.
  rewrite Hhit. cbn [mbind option_bind fst].
  by rewrite (List.filter_ext _ _ Hext).
Qed.

Lemma search_terms_hasEquity (f : Job.filters) :
  Job.hasEquity f = Some true →
  ∃ before after,
    (Job.search_terms (without_hasEquity f)).1 = before ++ after
    ∧ (Job.search_terms f).1 = before ++ PGtZero "equity" :: after
    ∧ (Job.search_terms f).2 = (Job.search_terms (without_hasEquity f)).2.
Proof.
  destruct f as [[m|] he [t|]]; simpl; intros ->.
  - by exists [PGe "salary" 1], [PILike "title" 2].
  - by exists [PGe "salary" 1], [].
  - by exists [], [PILike "title" 1].
  - by exists [], [].
Qed.

Lemma job_matches_hasEquity (loc : locale) (f : Job.filters) (j : job_row) :
  Job.hasEquity f = Some true →
  job_matches loc f j = job_matches loc (without_hasEquity f) j && has_equity j.
Proof.
  unfold job_matches, has_equity. intros ->.
  cbn [Job.minSalary Job.hasEquity Job.title without_hasEquity].
  destruct (match Job.minSalary f with Some _ => _ | None => _ end),
    (match jb_equity j with Some _ => _ | None => _ end),
    (match Job.title f with Some _ => _ | None => _ end); done.
Qed.

(** C6.  In [Job.findAll] a [hasEquity] filter that is false or left out
    adds nothing to the search: the search is that of the same filters
    without it.  Set to true it adds the one fixed predicate [equity > 0],
    which takes no parameter: the statement sent is that of the same
    filters without [hasEquity] with this one predicate more, and the same
    query values.  With typed filters the search succeeds.  Whenever it
    returns rows, every row shows a job of the store whose equity is a
    number strictly above zero, and the jobs listed are those the search
    without [hasEquity] lists whose equity is above zero, so jobs whose
    equity is zero or [NULL] are left out and no other job is. *)
Theorem job_findAll_hasEquity (f : Job.filters) (w : world) :
  (Job.hasEquity f ≠ Some true →
   Job.findAll f w = Job.findAll (without_hasEquity f) w)
  ∧ (Job.hasEquity f = Some true →
     (∃ before after params,
        let search conditions :=
          db_query (SELECT_JOBS_LEFT_JOIN_COMPANIES
                      Job.columns [("name", "companyName")]
                      conditions (Some "title")) params w in
        Job.findAll (without_hasEquity f) w = search (before ++ after)
        ∧ Job.findAll f w = search (before ++ PGtZero "equity" :: after))
     ∧ render_pred (PGtZero "equity") = "equity > 0"
     ∧ pred_param (PGtZero "equity") = None
     ∧ (job_filters_typed f → ∃ rows, (Job.findAll f w).1 = inr rows)
     ∧ ∀ rows,
         (Job.findAll f w).1 = inr rows →
         (∀ row, row ∈ rows → positive_equity (db w) row)
         ∧ ∀ rows',
             (Job.findAll (without_hasEquity f) w).1 = inr rows' →
             ∃ js js',
               rows = js ≫= left_join Job.columns [("name", "companyName")]
                                      (db w)
               ∧ rows' = js' ≫= left_join Job.columns [("name", "companyName")]
                                          (db w)
               ∧ js ≡ₚ List.filter has_equity js').
Proof.
  split.
  - intros Hne.
    assert (Job.search_terms f = Job.search_terms (without_hasEquity f)) as Heq.
    { destruct f as [[m|] [[|]|] [t|]]; done. }
    by rewrite !job_findAll_run, Heq.
  - intros Htrue.
    destruct (search_terms_hasEquity f Htrue) as (before & after & Hwo & Hw & Hv).
    split.
    { exists before, after, (Job.search_terms f).2. cbn zeta.
      rewrite !job_findAll_run. by rewrite Hw, Hwo, Hv. }
    split; [done|]. split; [done|].
    split; [intros _; eexists; apply job_findAll_rows|].
    intros rows Hrows. rewrite job_findAll_rows in Hrows.
    apply (inj inr) in Hrows. subst rows. split.
    + intros row (j & Hrow & Hj)%list_elem_of_bind.
      apply elem_of_order_rows, elem_of_filter_bool in Hj as [Hj Hj_hit].
      rewrite (job_matches_hasEquity _ _ _ Htrue) in Hj_hit.
      apply andb_true_iff in Hj_hit as [_ Hequity].
      unfold has_equity in Hequity.
      destruct (jb_equity j) as [d|] eqn:Hd; [|done].
      apply Z.ltb_lt in Hequity.
      apply left_join_fields in Hrow as [Hid Hrow].
      exists j, d. by rewrite Hd in Hrow.
    + intros rows' Hrows'. rewrite job_findAll_rows in Hrows'.
      apply (inj inr) in Hrows'. subst rows'.
      exists (order_rows (db_locale (db w)) (Some "title")
                (List.filter (job_matches (db_locale (db w)) f)
                             (jobs_tbl (db w)))),
             (order_rows (db_locale (db w)) (Some "title")
                (List.filter (job_matches (db_locale (db w))
                                          (without_hasEquity f))
                             (jobs_tbl (db w)))).
      split; [done|]. split; [done|].
      rewrite order_rows_perm.
      rewrite (filter_perm _ _ _ (order_rows_perm _ _ _)).
      rewrite filter_filter_andb.
      by rewrite (List.filter_ext _ _ (λ j, job_matches_hasEquity _ f j Htrue)).
Qed.

Lemma job_findAll_hasEquity_witness :
  ∃ rows,
    (Job.findAll {| Job.minSalary := Some 1; Job.hasEquity := Some true;
                    Job.title := None |} TestCommon.test_world).1 = inr rows.
Proof.
  refine (proj1 (proj2 (proj2 (proj2 (proj2 (job_findAll_hasEquity
            {| Job.minSalary := Some 1; Job.hasEquity := Some true;
               Job.title := None |} TestCommon.test_world) _)))) _).
  - reflexivity.
  - split; unfold typed, int4; simpl; lia || done.
Defined.

Lemma filter_by_key {A : Type} (key : A → string) (k : string) (l : list A) :
  NoDup (key <$> l) →
  (length (List.filter (λ x, String.eqb (key x) k) l) ≤ 1)%nat.
Proof.
  induction l as [|x l IH]; simpl; [lia|].
  intros [Hx Hl]%NoDup_cons. specialize (IH Hl).
  destruct (String.eqb_spec (key x) k) as [Hk|Hk]; [|done]. simpl.
  destruct (List.filter _ l) as [|y ys] eqn:Hf; [simpl; lia|].
  exfalso. apply Hx.
  assert (y ∈ List.filter (λ x0, String.eqb (key x0) k) l) as Hin
    by (rewrite Hf; left).
  apply elem_of_filter_bool in Hin as [Hin Hy].
  apply String.eqb_eq in Hy. rewrite Hk, <- Hy.
  by apply list_elem_of_fmap_2.
Qed.

Lemma left_join_listing (s : store) (j : job_row) :
  NoDup (co_handle <$> companies_tbl s) →
  left_join Job.columns [("name", "companyName")] s j = [job_listing s j].
Proof.
  intros Hnd. unfold left_join, job_listing.
  pose proof (filter_by_key co_handle (jb_company_handle j) _ Hnd) as Hlen.
  destruct (List.filter _ (companies_tbl s)) as [|c [|c' cs]]; simpl in *;
    (done || lia).
Qed.

Lemma bind_left_join_listing (s : store) (l : list job_row) :
  NoDup (co_handle <$> companies_tbl s) →
  l ≫= left_join Job.columns [("name", "companyName")] s
  = job_listing s <$> l.
Proof.
  intros Hnd. induction l as [|j l IH]; [done|].
  rewrite bind_cons, fmap_cons, IH. by rewrite left_join_listing.
Qed.

(** X12.  What [Job.findAll] returns on a store whose company handles are
    unique.  With typed filters the search succeeds.  Whenever it returns
    rows, there is one row for each job its filters ask for: a salary that
    is not [NULL] and at least [minSalary], an equity above zero when
    [hasEquity] is [true], a title the store's [ILIKE] matches with
    [%title%]; each row is the job's five columns and the name of its
    company as [companyName]; the rows come in ascending order of title
    under the store's collation, and without any filter they are all the
    jobs. *)
Theorem job_findAll_result (f : Job.filters) (w : world) :
  NoDup (co_handle <$> companies_tbl (db w)) →
  (job_filters_typed f → ∃ rows, (Job.findAll f w).1 = inr rows)
  ∧ ∀ rows,
      (Job.findAll f w).1 = inr rows →
      ∃ js,
        rows = job_listing (db w) <$> js
        ∧ js ≡ₚ List.filter (job_matches (db_locale (db w)) f)
                            (jobs_tbl (db w))
        ∧ (total_order (db_locale (db w)) →
           Sorted (λ a b, text_leb (db_locale (db w)) (jb_title a) (jb_title b)
                          = true) js)
        ∧ (f = Job.no_filters → js ≡ₚ jobs_tbl (db w)).
Proof.
  intros Hnd.
  split; [intros _; eexists; apply job_findAll_rows|].
  intros rows Hrows. rewrite job_findAll_rows in Hrows.
  apply (inj inr) in Hrows. subst rows.
  exists (order_rows (db_locale (db w)) (Some "title")
            (List.filter (job_matches (db_locale (db w)) f)
                         (jobs_tbl (db w)))).
  split; [by apply bind_left_join_listing|]. split; [|split].
  - by rewrite order_rows_perm.
  - intros Htotal.
    change (Sorted (λ a b : job_row,
                      order_leb (db_locale (db w))
                                (col_get "title" a) (col_get "title" b) = true)
                   (order_rows (db_locale (db w)) (Some "title")
                      (List.filter (job_matches (db_locale (db w)) f)
                                   (jobs_tbl (db w))))).
    by apply order_rows_sorted.
  - intros ->. rewrite order_rows_perm.
    unfold job_matches. simpl. by rewrite filter_all.
Qed.

Lemma job_findAll_result_witness :
  ∃ rows js,
    (Job.findAll {| Job.minSalary := Some 2; Job.hasEquity := None;
                    Job.title := Some "3" |} TestCommon.test_world).1
    = inr rows
    ∧ rows = job_listing TestCommon.test_store <$> js
    ∧ Sorted (λ a b, text_leb c_locale (jb_title a) (jb_title b) = true) js.
Proof.
  pose proof (job_findAll_result
                {| Job.minSalary := Some 2; Job.hasEquity := None;
                   Job.title := Some "3" |} TestCommon.test_world
                ltac:(vm_compute; apply (bool_decide_unpack _);
                      by vm_compute))
    as [Hsome Hrows].
  destruct Hsome as [rows Hres].
  - split; unfold typed, int4; simpl; lia || reflexivity.
  - destruct (Hrows rows Hres) as (js & Hlist & _ & Hsorted & _).
    exists rows, js. split; [done|]. split; [done|].
    apply Hsorted, c_locale_total.
Defined.

(** ** Remove, then get *)

Lemma filter_filter_neg {A : Type} (p : A → bool) (l : list A) :
  List.filter p (List.filter (λ x, negb (p x)) l) = [].
Proof.
  induction l as [|x l IH]; [done|]. simpl.
  destruct (p x) eqn:Hp; simpl; [done|]. by rewrite Hp.
Qed.

Lemma filter_filter_other {A : Type} (p q : A → bool) (l : list A) :
  (∀ x, q x = true → p x = false) →
  List.filter q (List.filter (λ x, negb (p x)) l) = List.filter q l.
Proof.
  intros Hpq. induction l as [|x l IH]; [done|]. simpl.
  destruct (p x) eqn:Hp; simpl.
  - destruct (q x) eqn:Hq; [|done]. apply Hpq in Hq. congruence.
  - by rewrite IH.
Qed.

Lemma company_hit_other (h h' : string) (r : company_row) :
  h' ≠ h → company_hit h' r && true = true → company_hit h r && true = false.
Proof.
  rewrite !andb_true_r. unfold company_hit.
  change (col_get "handle" r) with (SText (co_handle r)).
  intros Hne Hh'%sql_eqb_text. apply not_true_is_false.
  intros Hh%sql_eqb_text. congruence.
Qed.

Lemma job_hit_other (id id' : Z) (r : job_row) :
  id' ≠ id → job_hit id' r && true = true → job_hit id r && true = false.
Proof.
  rewrite !andb_true_r. unfold job_hit.
  change (col_get "id" r) with (SInt (jb_id r)).
  intros Hne Hh'%sql_eqb_int. apply not_true_is_false.
  intros Hh%sql_eqb_int. congruence.
Qed.

Lemma company_get_result (h : string) (w : world) :
  (Company.get h w).1
  = match List.filter (λ r, company_hit h r && true) (companies_tbl (db w)) with
    | [] => inl (NotFoundError ("No company: " +:+ h))
    | r :: _ => inr (JObj (project Company.columns r))
    end.
Proof. rewrite company_get_run. cbn zeta. by destruct (List.filter _ _). Qed.

Lemma job_get_result (id : Z) (w : world) :
  (Job.get id w).1
  = match List.filter (λ r, job_hit id r && true) (jobs_tbl (db w)) with
    | [] => inl (NotFoundError ("No job: " +:+ pretty id))
    | j :: _ =>
        inr (js_set "company"
               (rows0 (project Company.columns
                         <$> List.filter
                               (λ r, company_hit (jb_company_handle j) r && true)
                               (companies_tbl (db w))))
               (js_delete "companyHandle" (JObj (project Job.columns j))))
    end.
Proof.
  pose proof (job_get_run id w) as Hrun.
  destruct (List.filter _ (jobs_tbl (db w))); by destruct Hrun as [w' ->].
Qed.

Lemma company_remove_inv (h : string) (w w1 : world) (v : jsval) :
  Company.remove h w = (inr v, w1) →
  company_exists (db w) h
  ∧ companies_tbl (db w1)
    = List.filter (λ r, negb (company_hit h r && true)) (companies_tbl (db w)).
Proof.
  unfold Company.remove, mbind, M_bind. rewrite db_query_run.
  unfold exec. rewrite (company_key_where _ _ h) by done. cbn [fst snd].
  destruct (List.filter _ (companies_tbl (db w))) as [|r rs] eqn:Hf; [done|].
  cbn. intros [= <- <-]. split; [|done].
  apply company_exists_hits. by rewrite Hf.
Qed.

Lemma job_remove_inv (id : Z) (w w1 : world) (v : jsval) :
  Job.remove id w = (inr v, w1) →
  job_exists (db w) id
  ∧ jobs_tbl (db w1)
    = List.filter (λ r, negb (job_hit id r && true)) (jobs_tbl (db w))
  ∧ companies_tbl (db w1) = companies_tbl (db w).
Proof.
  unfold Job.remove, mbind, M_bind. rewrite db_query_run.
  unfold exec. rewrite (job_key_where _ _ id) by done. cbn [fst snd].
  destruct (List.filter _ (jobs_tbl (db w))) as [|r rs] eqn:Hf; [done|].
  cbn. intros [= <- <-]. split; [|done].
  apply job_exists_hits. by rewrite Hf.
Qed.

(** X13.  After a successful [Company.remove] the company is gone and no
    other company is touched: the handle was in the store before, [get] on
    it now ends in not-found, and [get] on every other handle returns what
    it returned before. *)
Theorem company_remove_then_get (handle : string) (w w1 : world) (v : jsval) :
  Company.remove handle w = (inr v, w1) →
  v = JUndefined
  ∧ company_exists (db w) handle
  ∧ ¬ company_exists (db w1) handle
  ∧ (Company.get handle w1).1 = inl (NotFoundError ("No company: " +:+ handle))
  ∧ (∀ other, other ≠ handle →
              (Company.get other w1).1 = (Company.get other w).1).
Proof.
  intros Hrm.
  assert (v = JUndefined) as ->.
  { revert Hrm. unfold Company.remove, mbind, M_bind.
    destruct (db_query _ _ w) as [[e|rows] w']; [done|].
    destruct (truthy (rows0 rows)); simpl; [|done]. by intros [= <- _]. }
  apply company_remove_inv in Hrm as [Hex Hdb].
  split; [done|]. split; [done|].
  assert (List.filter (λ r, company_hit handle r && true)
                      (companies_tbl (db w1)) = []) as Hgone
    by (rewrite Hdb; apply filter_filter_neg).
  split; [rewrite company_exists_hits, Hgone; intros Hn; by apply Hn|].
  split; [by rewrite company_get_result, Hgone|].
  intros other Hne. rewrite !company_get_result, Hdb.
  rewrite filter_filter_other; [done|].
  intros r. by apply company_hit_other.
Qed.

Lemma company_remove_then_get_witness :
  (Company.get "c2" (Company.remove "c2" TestCommon.test_world).2).1
  = inl (NotFoundError ("No company: " +:+ "c2")).
Proof.
  refine (proj1 (proj2 (proj2 (proj2 (company_remove_then_get "c2"
            TestCommon.test_world _ JUndefined _))))).
  vm_compute. reflexivity.
Defined.

(** X14.  After a successful [Job.remove] the job is gone and nothing else
    is touched: the id was in the store before, [get] on it now ends in
    not-found, [get] on every other id returns what it returned before, and
    the companies are as they were. *)
Theorem job_remove_then_get (id : Z) (w w1 : world) (v : jsval) :
  Job.remove id w = (inr v, w1) →
  v = JUndefined
  ∧ job_exists (db w) id
  ∧ ¬ job_exists (db w1) id
  ∧ (Job.get id w1).1 = inl (NotFoundError ("No job: " +:+ pretty id))
  ∧ (∀ other, other ≠ id → (Job.get other w1).1 = (Job.get other w).1)
  ∧ companies_tbl (db w1) = companies_tbl (db w).
Proof.
  intros Hrm.
  assert (v = JUndefined) as ->.
  { revert Hrm. unfold Job.remove, mbind, M_bind.
    destruct (db_query _ _ w) as [[e|rows] w']; [done|].
    destruct (truthy (rows0 rows)); simpl; [|done]. by intros [= <- _]. }
  apply job_remove_inv in Hrm as (Hex & Hdb & Hco).
  split; [done|]. split; [done|].
  assert (List.filter (λ r, job_hit id r && true) (jobs_tbl (db w1)) = [])
    as Hgone by (rewrite Hdb; apply filter_filter_neg).
  split; [rewrite job_exists_hits, Hgone; intros Hn; by apply Hn|].
  split; [by rewrite job_get_result, Hgone|].
  split; [|done].
  intros other Hne. rewrite !job_get_result, Hdb, Hco.
  rewrite filter_filter_other; [done|].
  intros r. by apply job_hit_other.
Qed.

Lemma job_remove_then_get_witness :
  (Job.get 2 (Job.remove 2 TestCommon.test_world).2).1
  = inl (NotFoundError ("No job: " +:+ pretty 2)).
Proof.
  refine (proj1 (proj2 (proj2 (proj2 (job_remove_then_get 2
            TestCommon.test_world _ JUndefined _))))).
  vm_compute. reflexivity.
Defined.

(** ** What [Job.get] returns *)

Lemma filter_unique {A K : Type} (key : A → K) (p : A → bool) (k : K)
    (l : list A) (x : A) :
  (∀ y, p y = true ↔ key y = k) →
  NoDup (key <$> l) → x ∈ l → key x = k → List.filter p l = [x].
Proof.
  intros Hp. induction l as [|y l IH]; [by intros _ ?%elem_of_nil|].
  rewrite fmap_cons. intros [Hy Hl]%NoDup_cons Hx Hk. simpl.
  destruct (p y) eqn:Hpy.
  - apply Hp in Hpy.
    assert (List.filter p l = []) as ->.
    { destruct (List.filter p l) as [|z zs] eqn:Hf; [done|]. exfalso.
      assert (z ∈ List.filter p l) as [Hz Hpz]%elem_of_filter_bool
        by (rewrite Hf; left).
      apply Hp in Hpz. apply Hy. rewrite Hpy, <- Hpz.
      by apply list_elem_of_fmap_2. }
    apply elem_of_cons in Hx as [->|Hx]; [done|]. exfalso.
    apply Hy. rewrite Hpy, <- Hk. by apply list_elem_of_fmap_2.
  - apply elem_of_cons in Hx as [->|Hx]; [|by apply IH].
    apply Hp in Hk. congruence.
Qed.

Lemma company_hit_iff (h : string) (r : company_row) :
  company_hit h r && true = true ↔ co_handle r = h.
Proof. rewrite andb_true_r. apply sql_eqb_text. Qed.

Lemma job_hit_iff (id : Z) (r : job_row) :
  job_hit id r && true = true ↔ jb_id r = id.
Proof. rewrite andb_true_r. apply sql_eqb_int. Qed.

(** X15.  [Job.get] on a job of a store with unique keys returns the job's
    [id], [title], [salary] and [equity] (a [NUMERIC] as its decimal
    string), no [companyHandle], and under [company] the five fields of the
    company the job belongs to; when no company has the job's handle,
    [company] is [undefined]. *)
Theorem job_get_detail (id : Z) (w : world) (j : job_row) :
  NoDup (jb_id <$> jobs_tbl (db w)) →
  NoDup (co_handle <$> companies_tbl (db w)) →
  j ∈ jobs_tbl (db w) → jb_id j = id →
  ∃ company,
    (Job.get id w).1
    = inr (JObj [("id", JNum id); ("title", JStr (jb_title j));
                 ("salary", from_option JNum JNull (jb_salary j));
                 ("equity",
                  from_option (λ d, JStr (print_numeric d)) JNull (jb_equity j));
                 ("company", company)])
    ∧ (∀ c, c ∈ companies_tbl (db w) →
            co_handle c = jb_company_handle j →
            company
            = JObj [("handle", JStr (co_handle c)); ("name", JStr (co_name c));
                    ("description", JStr (co_description c));
                    ("numEmployees",
                     from_option JNum JNull (co_num_employees c));
                    ("logoUrl", from_option JStr JNull (co_logo_url c))])
    ∧ (¬ company_exists (db w) (jb_company_handle j) → company = JUndefined).
Proof.
  intros Hids Hhandles Hj Hid.
  rewrite job_get_result.
  rewrite (filter_unique jb_id _ id _ j (job_hit_iff id) Hids Hj Hid).
  eexists. split.
  - cbn [js_delete js_set]. f_equal. f_equal.
    unfold project, Job.columns. cbn [fmap list_fmap fst snd].
    change (col_get "id" j) with (SInt (jb_id j)).
    change (col_get "title" j) with (SText (jb_title j)).
    change (col_get "salary" j) with (from_option SInt SNull (jb_salary j)).
    change (col_get "equity" j)
      with (from_option SNumeric SNull (jb_equity j)).
    rewrite Hid. destruct (jb_salary j), (jb_equity j); reflexivity.
  - split.
    + intros c Hc Hh.
      rewrite (filter_unique co_handle _ (jb_company_handle j) _ c
                 (company_hit_iff _) Hhandles Hc Hh).
      cbn [fmap list_fmap rows0]. f_equal.
      unfold project, Company.columns. cbn [fmap list_fmap fst snd].
      change (col_get "handle" c) with (SText (co_handle c)).
      change (col_get "name" c) with (SText (co_name c)).
      change (col_get "description" c) with (SText (co_description c)).
      change (col_get "num_employees" c)
        with (from_option SInt SNull (co_num_employees c)).
      change (col_get "logo_url" c)
        with (from_option SText SNull (co_logo_url c)).
      destruct (co_num_employees c), (co_logo_url c); reflexivity.
    + intros Hno. rewrite company_exists_hits in Hno.
      destruct (List.filter _ (companies_tbl (db w))); [done|].
      exfalso. by apply Hno.
Qed.

Lemma job_get_detail_witness :
  ∃ company,
    (Job.get 3 TestCommon.test_world).1
    = inr (JObj [("id", JNum 3); ("title", JStr "J3"); ("salary", JNum 3);
                 ("equity", JNull); ("company", company)]).
Proof.
  destruct (job_get_detail 3 TestCommon.test_world
              {| jb_id := 3; jb_title := "J3"; jb_salary := Some 3;
                 jb_equity := None; jb_company_handle := "c1" |})
    as (company & Hget & _).
  - vm_compute. apply (bool_decide_unpack _). by vm_compute.
  - vm_compute. apply (bool_decide_unpack _). by vm_compute.
  - vm_compute. do 2 right. left.
  - reflexivity.
  - by exists company.
Defined.

(** ** Updates *)

Lemma bind_set_unknown {R : Type} `{!Table R} (jsToSql : gmap string string)
    (data : obj) (params : list jsval) (k : string) (v : jsval) :
  (k, v) ∈ data →
  col_type (R:=R) (column_of jsToSql k) = None →
  bind_set (R:=R) params (set_clause data jsToSql) = None.
Proof.
  intros Hin Hcol.
  destruct (bind_set params (set_clause data jsToSql)) as [asg|] eqn:Hb;
    [|done].
  exfalso.
  assert (is_Some (bind_set (R:=R) params (set_clause data jsToSql))) as Hs
    by (by rewrite Hb).
  unfold bind_set in Hs. rewrite mapM_is_Some, Forall_lookup in Hs.
  apply list_elem_of_lookup in Hin as [i Hi].
  specialize (Hs i _ (set_clause_lookup _ jsToSql _ _ _ Hi)).
  unfold compose, bound in Hs. cbn [fst snd] in Hs. rewrite Hcol in Hs.
  by destruct Hs.
Qed.

(** X16.  An update that names a field which is not a column of the table
    is refused by the store whatever the key, and changes nothing.
    [Job.update] passes an empty column-name mapping, so the field
    [companyHandle] of a job is such a field, while [Company.update] maps
    [numEmployees] and [logoUrl] to their columns. *)
Theorem update_unknown_field (data : obj) (w : world) (k : string) (v : jsval) :
  (k, v) ∈ data →
  (∀ handle,
     col_type (R:=company_row) (column_of Company.jsToSql k) = None →
     ∃ m w', Company.update handle data w = (inl (StoreError m), w')
             ∧ db w' = db w)
  ∧ (∀ id,
       col_type (R:=job_row) k = None →
       ∃ m w', Job.update id data w = (inl (StoreError m), w')
               ∧ db w' = db w)
  ∧ col_type (R:=job_row) "companyHandle" = None
  ∧ column_of Company.jsToSql "numEmployees" = "num_employees"
  ∧ column_of Company.jsToSql "logoUrl" = "logo_url".
Proof.
  intros Hin.
  assert (data ≠ []) as Hne by (intros ->; by apply elem_of_nil in Hin).
  split; [|split; [|done]].
  - intros h Hcol. unfold Company.update, mbind, M_bind, lift.
    rewrite (sqlForPartialUpdate_nonempty _ _ Hne). cbn [values].
    rewrite db_query_run. unfold exec.
    destruct (negb (bool_decide _)); [by eexists _, _|].
    rewrite (company_key_where _ _ h) by apply param_last.
    rewrite (bind_set_unknown _ _ _ _ _ Hin Hcol).
    by eexists _, _.
  - intros id Hcol. unfold Job.update, mbind, M_bind, lift.
    rewrite (sqlForPartialUpdate_nonempty _ _ Hne). cbn [values].
    rewrite db_query_run. unfold exec.
    destruct (negb (bool_decide _)); [by eexists _, _|].
    rewrite (job_key_where _ _ id) by apply param_last.
    rewrite (bind_set_unknown ∅ _ _ k v Hin)
      by (unfold column_of; by rewrite lookup_empty).
    by eexists _, _.
Qed.

Lemma update_unknown_field_witness :
  ∃ m w',
    Job.update 1 [("title", JStr "New"); ("companyHandle", JStr "c2")]
               TestCommon.test_world
    = (inl (StoreError m), w')
    ∧ db w' = TestCommon.test_store.
Proof.
  refine (proj1 (proj2 (update_unknown_field
            [("title", JStr "New"); ("companyHandle", JStr "c2")]
            TestCommon.test_world "companyHandle" (JStr "c2") _)) 1 _).
  - right. left.
  - reflexivity.
Defined.

Lemma company_put_get (c c' : string) (v : sqlval) (r r' : company_row) :
  col_put c v r = Some r' →
  col_get c' r' = if decide (c' = c) then v else col_get c' r.
Proof.
  cbn [col_put col_get company_table].
  repeat (case_decide; subst; try done);
    destruct v; simpl; try done; intros [= <-]; simpl;
    repeat (case_decide; try done); done.
Qed.

Lemma apply_set_none {R : Type} `{!Table R} (asg : list (string * sqlval)) :
  foldl (λ (acc : option R) (cv : string * sqlval),
           acc ≫= col_put cv.1 cv.2) None asg = None.
Proof. induction asg as [|x l IH]; [done|]. simpl. apply IH. Qed.

Section apply_set.
Context {R : Type} `{!Table R}.
Hypothesis put_get : ∀ (c c' : string) (v : sqlval) (r r' : R),
  col_put c v r = Some r' →
  col_get c' r' = if decide (c' = c) then v else col_get c' r.

Lemma apply_set_get (asg : list (string * sqlval)) (r r' : R) (c : string) :
  apply_set asg r = Some r' →
  NoDup asg.*1 →
  (∀ v, (c, v) ∈ asg → col_get c r' = v)
  ∧ (c ∉ asg.*1 → col_get c r' = col_get c r).
Proof.
  unfold apply_set. revert r.
  induction asg as [|[c0 v0] asg IH]; intros r.
  - cbn [foldl]. intros [= <-] _. split; [by intros v ?%elem_of_nil|done].
  - cbn [foldl fst snd mbind option_bind]. rewrite fmap_cons. cbn [fst].
    destruct (col_put c0 v0 r) as [r1|] eqn:Hput;
      [|by rewrite apply_set_none].
    intros Hfold [Hc0 Hnd]%NoDup_cons.
    destruct (IH r1 Hfold Hnd) as [IHin IHout].
    pose proof (put_get c0 c v0 r r1 Hput) as Hget.
    split.
    + intros v [Heq|Hin]%elem_of_cons; [|by apply IHin].
      injection Heq as -> ->.
      rewrite (IHout Hc0), Hget. by rewrite decide_True.
    + intros [Hne Hout]%not_elem_of_cons.
      rewrite (IHout Hout), Hget. by rewrite decide_False.
Qed.
End apply_set.

Lemma update_rows_spec {R : Type} (hit : R → bool) (f : R → option R)
    (rows rows' : list R) (changed : list (R * R)) :
  update_rows hit f rows = Some (rows', changed) →
  rows' = (λ r, if hit r then default r (f r) else r) <$> rows
  ∧ changed = (λ r, (r, default r (f r))) <$> List.filter hit rows
  ∧ Forall (λ r, is_Some (f r)) (List.filter hit rows).
Proof.
  revert rows' changed.
  induction rows as [|r rows IH]; simpl; intros rows' changed.
  - by intros [= <- <-].
  - destruct (update_rows hit f rows) as [[rest ch]|]; [|done]. simpl.
    destruct (IH rest ch eq_refl) as (-> & -> & Hall).
    destruct (hit r) eqn:Hr.
    + destruct (f r) as [r1|] eqn:Hf; [|done]. cbn [mbind option_bind].
      intros [= <- <-]. cbn [fmap list_fmap]. rewrite ?Hf.
      repeat split; try done.
      constructor; [by rewrite Hf|done].
    + by intros [= <- <-].
Qed.

Lemma filter_fmap_same {A : Type} (q : A → bool) (g : A → A) (l : list A) :
  (∀ x, q (g x) = q x) → List.filter q (g <$> l) = g <$> List.filter q l.
Proof.
  intros Hq. induction l as [|x l IH]; [done|].
  rewrite fmap_cons. cbn [List.filter]. rewrite Hq.
  destruct (q x); [rewrite fmap_cons|]; by rewrite IH.
Qed.

Lemma company_update_inv (h : string) (data : obj) (w w1 : world)
    (company : jsval) :
  data ≠ [] →
  Company.update h data w = (inr company, w1) →
  ∃ asg r rest,
    bind_set (R:=company_row) (data.*2 ++ [JStr h])
             (set_clause data Company.jsToSql) = Some asg
    ∧ List.filter (λ r, company_hit h r && true) (companies_tbl (db w))
      = r :: rest
    ∧ Forall (λ r, is_Some (apply_set asg r)) (r :: rest)
    ∧ companies_tbl (db w1)
      = (λ r, if company_hit h r && true
              then default r (apply_set asg r) else r)
          <$> companies_tbl (db w)
    ∧ jobs_tbl (db w1) = jobs_tbl (db w)
    ∧ company = JObj (project Company.columns (default r (apply_set asg r))).
Proof.
  intros Hne. unfold Company.update, mbind, M_bind, lift.
  rewrite (sqlForPartialUpdate_nonempty _ _ Hne). cbn [values].
  rewrite db_query_run. unfold exec.
  destruct (negb (bool_decide _)); [done|].
  rewrite (company_key_where _ _ h) by apply param_last.
  destruct (bind_set _ _) as [asg|] eqn:Hasg; [|done].
  destruct (update_rows _ _ _) as [[rows' changed]|] eqn:Hu; [|done].
  apply update_rows_spec in Hu as (-> & -> & Hall).
  destruct (forallb _ _); [|done]. cbn [fst snd].
  destruct (List.filter _ (companies_tbl (db w))) as [|r rest] eqn:Hf; [done|].
  cbn. intros [= <- <-]. by exists asg, r, rest.
Qed.

Lemma bind_set_columns {R : Type} `{!Table R} (params : list jsval)
    (set : list (string * nat)) (asg : list (string * sqlval)) :
  bind_set (R:=R) params set = Some asg → asg.*1 = set.*1.
Proof.
  intros Hb%bind_set_inv.
  induction Hb as [|[c i] [c' v] set asg [Hc _] _ IH]; [done|].
  rewrite !fmap_cons, IH. simpl in *. by rewrite Hc.
Qed.

Lemma bind_set_value {R : Type} `{!Table R} (jsToSql : gmap string string)
    (data : obj) (key : jsval) (asg : list (string * sqlval))
    (k : string) (v : jsval) :
  bind_set (R:=R) (data.*2 ++ [key]) (set_clause data jsToSql) = Some asg →
  (k, v) ∈ data →
  ∃ ty sv, (column_of jsToSql k, sv) ∈ asg
           ∧ col_type (R:=R) (column_of jsToSql k) = Some ty
           ∧ bind_param ty.1 v = Some sv.
Proof.
  intros Hb%bind_set_inv [i Hi]%list_elem_of_lookup.
  pose proof (set_clause_lookup _ jsToSql _ _ _ Hi) as Hset.
  destruct (Forall2_lookup_l _ _ _ _ _ Hb Hset) as ([c sv] & Hasg & Hc & Hbound).
  simpl in Hc, Hbound. subst c. unfold bound in Hbound.
  destruct (col_type (column_of jsToSql k)) as [ty|] eqn:Hty; [|done].
  cbn [mbind option_bind param] in Hbound.
  rewrite lookup_app_l in Hbound
    by (rewrite length_fmap; by eapply lookup_lt_Some).
  rewrite list_lookup_fmap, Hi in Hbound. simpl in Hbound.
  exists ty, sv. split; [by eapply list_elem_of_lookup_2|done].
Qed.

Lemma company_field_column (k : string) :
  k ∈ company_update_fields →
  (∀ r : company_row, js_get k (JObj (project Company.columns r))
        = to_js (col_get (column_of Company.jsToSql k) r))
  ∧ column_of Company.jsToSql k ≠ "handle"
  ∧ (∀ ty, col_type (R:=company_row) (column_of Company.jsToSql k) = Some ty →
           ty.1 ≠ TNumeric).
Proof.
  unfold company_update_fields.
  rewrite !elem_of_cons, elem_of_nil.
  intros [->|[->|[->|[->|[]]]]]; (split; [done|]); split; try done;
    by intros ty [= <-].
Qed.

Lemma company_column_inj (k k' : string) :
  k ∈ company_update_fields → k' ∈ company_update_fields →
  column_of Company.jsToSql k = column_of Company.jsToSql k' → k = k'.
Proof.
  unfold company_update_fields.
  rewrite !elem_of_cons, !elem_of_nil.
  intros [->|[->|[->|[->|[]]]]] [->|[->|[->|[->|[]]]]] Heq;
    try reflexivity; by vm_compute in Heq.
Qed.



Lemma job_put_get (c c' : string) (v : sqlval) (r r' : job_row) :
  col_put c v r = Some r' →
  col_get c' r' = if decide (c' = c) then v else col_get c' r.
Proof.
  cbn [col_put col_get job_table].
  repeat (case_decide; subst; try done);
    destruct v; simpl; try done; intros [= <-]; simpl;
    repeat (case_decide; try done); done.
Qed.

Lemma job_update_inv (id : Z) (data : obj) (w w1 : world) (job : jsval) :
  data ≠ [] →
  Job.update id data w = (inr job, w1) →
  ∃ asg r rest,
    bind_set (R:=job_row) (data.*2 ++ [JNum id]) (set_clause data ∅)
    = Some asg
    ∧ List.filter (λ r, job_hit id r && true) (jobs_tbl (db w)) = r :: rest
    ∧ Forall (λ r, is_Some (apply_set asg r)) (r :: rest)
    ∧ jobs_tbl (db w1)
      = (λ r, if job_hit id r && true
              then default r (apply_set asg r) else r)
          <$> jobs_tbl (db w)
    ∧ companies_tbl (db w1) = companies_tbl (db w)
    ∧ job = JObj (project Job.columns (default r (apply_set asg r))).
Proof.
  intros Hne. unfold Job.update, mbind, M_bind, lift.
  rewrite (sqlForPartialUpdate_nonempty _ _ Hne). cbn [values].
  rewrite db_query_run. unfold exec.
  destruct (negb (bool_decide _)); [done|].
  rewrite (job_key_where _ _ id) by apply param_last.
  destruct (bind_set _ _) as [asg|] eqn:Hasg; [|done].
  destruct (update_rows _ _ _) as [[rows' changed]|] eqn:Hu; [|done].
  apply update_rows_spec in Hu as (-> & -> & Hall).
  destruct (forallb _ _); [|done]. cbn [fst snd].
  destruct (List.filter _ (jobs_tbl (db w))) as [|r rest] eqn:Hf; [done|].
  cbn. intros [= <- <-]. by exists asg, r, rest.
Qed.

Lemma job_field_column (k : string) :
  k ∈ job_update_fields →
  (∀ r : job_row, js_get k (JObj (project Job.columns r))
                  = to_js (col_get k r))
  ∧ k ≠ "id" ∧ k ≠ "company_handle"
  ∧ (k ≠ "equity" →
     ∀ ty, col_type (R:=job_row) k = Some ty → ty.1 ≠ TNumeric)
  ∧ (k = "equity" → col_type (R:=job_row) k = Some (TNumeric, true)).
Proof.
  unfold job_update_fields.
  rewrite !elem_of_cons, elem_of_nil.
  intros [->|[->|[->|[]]]]; (split; [done|]); repeat (split; [done|]);
    split; try done; by intros _ ty [= <-].
Qed.


